(** * Float: a minifloat codec (Year1/Semester2/CS/float.js)

    A shallow embedding of the class [Float] and of its two public methods,
    [toBinary] (decimal to bits) and [toDecimal] (bits to decimal), with the
    helpers they call.

    Conventions of the embedding.
    - A JavaScript string is a [list ascii] ([str]); bit strings are strings
      over the characters "0" and "1".
    - A finite JavaScript number is an exact rational ([Q]); the embedding
      coincides with the IEEE double arithmetic of the host wherever that
      arithmetic is exact (dyadic values of moderate size, which is what the
      codec is used on).  Results that can be special are [number]s.
    - Integer-valued quantities (widths, exponents, indices) are in [Z].
    - [Float.bias] is stored as computed by the constructor, a rational
      (it is [-1/2] when [expBits = 0]); [toBinary] and [toDecimal] use it in
      integer positions (repetition counts, powers of two, digit conversion)
      and read it through [biasZ], which is exact whenever [1 <= expBits].

    Main results: the round trip (encoding the value of a finite
    representation gives the representation back, within the limits the code
    sets itself, the cap on the digits of the decimal part and [maxAbs], and
    away from zero and from the binade whose offset exponent equals the
    bias); the shape of what [toBinary] returns for a number and its
    opposite, for zero and above [maxAbs]; what [toDecimal] returns on
    malformed strings, on the zero patterns and on the special patterns; the
    end of the loop on the decimal part within [totalBits + 1] turns. *)

From Stdlib Require Import ZArith QArith Qround Qabs Qpower Ascii String Bool Lia List.
Import ListNotations.

Open Scope Z_scope.

(** ** Strings *)

Definition str := list ascii.

Definition s (x : string) : str := list_ascii_of_string x.

Definition c0 : ascii := "0"%char.
Definition c1 : ascii := "1"%char.

Definition len (x : str) : Z := Z.of_nat (length x).

(** [c.repeat(n)] for a count that is not negative. *)
Definition rep (c : ascii) (n : Z) : str := repeat c (Z.to_nat n).

(** [x.substring(a, b)]: both indices are clamped to [0, length], and swapped
    when [a > b]. *)
Definition clamp (x : str) (i : Z) : Z := Z.min (Z.max 0 i) (len x).

Definition substring (x : str) (a b : Z) : str :=
  let a' := clamp x a in
  let b' := clamp x b in
  let lo := Z.min a' b' in
  let hi := Z.max a' b' in
  firstn (Z.to_nat (hi - lo)) (skipn (Z.to_nat lo) x).

(** [x[i]], [None] for [undefined]. *)
Definition charAt (x : str) (i : Z) : option ascii :=
  if i <? 0 then None else nth_error x (Z.to_nat i).

(** [x.replace(/^0+/gm, "")] on a string without line breaks. *)
Fixpoint stripZeros (x : str) : str :=
  match x with
  | c :: r => if Ascii.eqb c c0 then stripZeros r else x
  | [] => []
  end.

(** [x.includes("1")] *)
Definition includes1 (x : str) : bool := existsb (Ascii.eqb c1) x.

(** [x.indexOf("1")], [-1] when absent. *)
Fixpoint indexOf1 (x : str) : Z :=
  match x with
  | [] => -1
  | c :: r => if Ascii.eqb c c1 then 0
              else let i := indexOf1 r in if i <? 0 then -1 else i + 1
  end.

(** The digit a character stands for, as [parseInt] and the coercion in
    [bits[i] * ...] read it; only "0" and "1" occur where it is called. *)
Definition digitVal (c : ascii) : Z := if Ascii.eqb c c1 then 1 else 0.

(** [String(d)] for a binary digit [d]. *)
Definition digitChar (d : Z) : ascii := if d =? 0 then c0 else c1.

Definition isBinChar (c : ascii) : bool := Ascii.eqb c c0 || Ascii.eqb c c1.

(** [parseInt(x, 2)] on a string of binary digits; [None] is NaN, the result
    on the empty string (and on [undefined]). *)
Definition binVal (x : str) : Z :=
  fold_left (fun acc c => 2 * acc + digitVal c) x 0.

Definition parseInt2 (x : str) : option Z :=
  match x with
  | [] => None
  | _ => Some (binVal x)
  end.

(** ** Numbers *)

Inductive number : Type :=
| NaN
| PosInfinity
| NegInfinity
| Fin (q : Q).

(** [sign * Infinity] *)
Definition signedInfinity (sign : Z) : number :=
  if sign <? 0 then NegInfinity else PosInfinity.

(** [Math.pow(2, k)] for an integer [k]. *)
Definition pow2 (k : Z) : Q := Qpower 2 k.

(** The integer part of a number as its decimal text shows it (the text before
    the dot): truncation towards zero. *)
Definition truncQ (q : Q) : Z := Z.quot (Qnum q) (Z.pos (Qden q)).

(** ** The class *)

Record Float : Type := mkFloat {
  expBits : Z;
  mantBits : Z;
  totalBits : Z;
  bias : Q;
  maxAbs : Q
}.

(** What [new Float(exponent, mantissa)] can do: return the object, or throw. *)
Inductive outcome (A : Type) : Type :=
| Returned (a : A)
| Thrown (err : string).
Arguments Returned {A} a.
Arguments Thrown {A} err.

Definition constructor (exponent mantissa : Z) : Float :=
  let total := 1 + exponent + mantissa in
  {| expBits := exponent;
     mantBits := mantissa;
     totalBits := total;
     bias := (pow2 (exponent - 1) - 1)%Q;
     maxAbs := (pow2 (total - 1) - 1)%Q |}.

Definition new_Float (exponent mantissa : Z) : outcome Float :=
  Returned (constructor exponent mantissa).

Definition biasZ (f : Float) : Z := Qfloor (bias f).

(** ** _toBinaryInt *)

(** The body of the do-while loop: [bits] is kept most significant first, the
    order the final reverse gives. *)
Fixpoint toBinaryInt_loop (fuel : nat) (n : Z) (bits : str) : str :=
  let bits' := digitChar (n mod 2) :: bits in
  let n' := n / 2 in
  match fuel with
  | O => bits'
  | S k => if n' >? 0 then toBinaryInt_loop k n' bits' else bits'
  end.

Definition _toBinaryInt (num : Z) : str :=
  let n := Z.abs num in
  toBinaryInt_loop (Z.to_nat n) n [].

(** ** _binaryFracToDec *)

Fixpoint binaryFracToDec_loop (bits : str) (i : Z) (num : Q) : Q :=
  match bits with
  | [] => num
  | b :: r =>
      binaryFracToDec_loop r (i + 1)
        (num + inject_Z (digitVal b) * pow2 (- (i + 1)))%Q
  end.

Definition _binaryFracToDec (bits : str) : Q := binaryFracToDec_loop bits 0 0%Q.

(** ** toDecimal *)

Definition toDecimal (f : Float) (bits : str) : number :=
  if negb (len bits =? totalBits f) then NaN
  else if existsb (fun c => negb (isBinChar c)) bits then NaN
  else
    let sign : Z :=
      match charAt bits 0 with
      | Some c => if digitVal c =? 0 then 1 else -1
      | None => -1
      end in
    let mant := substring bits (1 + expBits f) (1 + expBits f + mantBits f) in
    match parseInt2 (substring bits 1 (1 + expBits f)) with
    | None => NaN
    | Some rawExp =>
        if rawExp >? biasZ f * 2 then
          if (rawExp =? biasZ f * 2 + 1)
             && match parseInt2 mant with Some 0 => true | _ => false end
          then signedInfinity sign
          else NaN
        else if rawExp =? 0 then
          Fin (inject_Z sign * _binaryFracToDec mant * pow2 (1 - biasZ f))%Q
        else
          Fin (inject_Z sign * (1 + _binaryFracToDec mant)
               * pow2 (rawExp - biasZ f))%Q
    end.

(** ** toBinary *)

(** [a > b] on numbers. *)
Definition Qgtb (a b : Q) : bool := negb (Qle_bool a b).

(** A while loop run with a bound on the number of tests of its condition;
    [None] when the bound is reached before the condition fails. *)
Fixpoint while {St : Type} (fuel : nat) (cond : St -> bool) (body : St -> St)
  (st : St) : option St :=
  match fuel with
  | O => None
  | S k => if cond st then while k cond body (body st) else Some st
  end.

(** The variables of the loop that produces the bits of the decimal part. *)
Record decState : Type := mkDec {
  iters : Z;
  decN : Q;
  _decBits : list Z
}.

Definition decCond (decNLim : Z) (st : decState) : bool :=
  (iters st <=? decNLim) && Qgtb (decN st) 0.

(** One turn: [nn = decN * 2]; the digit pushed is the integer part of [nn],
    and [decN] becomes the part of [nn] after the dot.  (When [nn] is an
    integer its text has no dot and the source gets NaN there, which fails
    [decN > 0] exactly as 0 does; [decN] is not read after the loop.) *)
Definition decBody (st : decState) : decState :=
  let nn := (decN st * 2)%Q in
  {| iters := iters st + 1;
     decN := (nn - inject_Z (truncQ nn))%Q;
     _decBits := _decBits st ++ [truncQ nn] |}.

Definition decInit (d : Q) : decState :=
  {| iters := 0; decN := d; _decBits := [] |}.

Definition decFuel (f : Float) : nat := Z.to_nat (totalBits f + 2).

Definition decLoop (f : Float) (d : Q) : option decState :=
  while (decFuel f) (decCond (totalBits f)) decBody (decInit d).

(** [_decBits.join("")] *)
Definition join (ds : list Z) : str := map digitChar ds.

(** The loop that adds the first trimmed bit ([sum]) to the reversed data. *)
Fixpoint roundLoop (sum carry : Z) (_data : str) : str :=
  match _data with
  | [] => []
  | b :: r =>
      match digitVal b + sum with
      | 0 => digitChar carry :: r
      | 1 => (if carry =? 0 then c1 else c0) :: r
      | 2 => (if carry =? 0 then b else c1) :: roundLoop sum 1 r
      | _ => b :: roundLoop sum carry r
      end
  end.

(** The offset exponent [_exp]. *)
Definition offsetExp (intBits decBits : str) : Z :=
  let normIntBits := stripZeros intBits in
  if includes1 normIntBits then len normIntBits - 1
  else if includes1 decBits then - (indexOf1 decBits + 1)
  else 0.

(** The mantissa of the branch [exp >= 0]. *)
Definition normalMant (f : Float) (num : Q) (rounding inf : bool) (exp : Z)
  (normalizedData : str) : str :=
  if inf || Qgtb (Qabs num) (maxAbs f) then rep c0 (mantBits f)
  else
    let g := if exp >? 0 then 1 else 0 in
    if len normalizedData <=? mantBits f then
      let data := substring normalizedData g (mantBits f) in
      data ++ rep c0 (Z.max 0 (mantBits f - len data))
    else
      let data := substring normalizedData g (mantBits f + g) in
      let data :=
        if rounding then
          let lsb := match charAt normalizedData (mantBits f + 1) with
                     | Some c => c
                     | None => c0
                     end in
          rev (roundLoop (digitVal lsb) 0 (rev data))
        else data in
      data ++ rep c0 (Z.max 0 (mantBits f - len data)).

(** The bits after the sign bit: the exponent field, then the mantissa. *)
Definition toBinaryBody (f : Float) (num : Q) (rounding : bool) : str :=
  let int := truncQ num in
  let intBits := _toBinaryInt int in
  let decBits :=
    match decLoop f (Qabs (num - inject_Z int)) with
    | Some st => join (_decBits st)
    | None => []
    end in
  let _exp := offsetExp intBits decBits in
  let exp := if _exp - biasZ f =? 0 then 0 else _exp + biasZ f in
  let payloadData := intBits ++ decBits in
  let normalizedData := stripZeros payloadData in
  if exp <? 0 then
    let expBits_ := rep c0 (expBits f) in
    let nexp := 1 - biasZ f in
    let denExp := _exp - nexp in
    let denormalizedData :=
      rep c0 (Z.max 0 (- denExp - 1)) ++ normalizedData in
    let mantBits_ :=
      substring denormalizedData 0 (mantBits f)
      ++ rep c0 (Z.max 0 (mantBits f - len denormalizedData)) in
    expBits_ ++ mantBits_
  else
    let _expBits := _toBinaryInt exp in
    let expBits_ := rep c0 (Z.max 0 (expBits f - len _expBits)) ++ _expBits in
    let inf := len expBits_ >? expBits f in
    let expBits_ := if inf then rep c1 (expBits f) else expBits_ in
    expBits_ ++ normalMant f num rounding inf exp normalizedData.

Definition signBit (num : Q) : ascii := if Qgtb num 0 then c0 else c1.

Definition toBinary (f : Float) (num : Q) (rounding : bool) : str :=
  signBit num :: toBinaryBody f num rounding.

(** The fields of an encoded representation. *)
Definition signField (bits : str) : str := substring bits 0 1.
Definition expField (f : Float) (bits : str) : str :=
  substring bits 1 (1 + expBits f).
Definition mantField (f : Float) (bits : str) : str :=
  substring bits (1 + expBits f) (1 + expBits f + mantBits f).

(** A string of binary digits. *)
Definition allBin (x : str) : Prop := Forall (fun c => isBinChar c = true) x.

(** What every turn of the loop on the decimal part preserves. *)
Definition decInv (st : decState) : Prop :=
  0 <= iters st /\ Z.of_nat (length (_decBits st)) = iters st
  /\ (0 <= decN st)%Q /\ (decN st < 1)%Q.

(** What the loop has computed after [iters] turns on the decimal part [d]:
    the digits pushed are the first [iters] binary digits of [d], and [decN]
    is what remains. *)
Definition decSem (d : Q) (st : decState) : Prop :=
  decInv st
  /\ allBin (join (_decBits st))
  /\ (decN st
      == d * pow2 (iters st) - inject_Z (binVal (join (_decBits st))))%Q.

(** All strings of [n] binary digits. *)
Fixpoint bitStrings (n : nat) : list str :=
  match n with
  | O => [[]]
  | S k => map (cons c0) (bitStrings k) ++ map (cons c1) (bitStrings k)
  end.

Definition str_eqb (x y : str) : bool :=
  if list_eq_dec Ascii.ascii_dec x y then true else false.

(** The round trip on one representation: it decodes to a number that is
    zero, or its raw exponent is [2 * bias], or encoding the number gives the
    representation back. *)
Definition roundtrips (f : Float) (rounding : bool) (bits : str) : bool :=
  match toDecimal f bits with
  | Fin q =>
      Qeq_bool q 0
      || (binVal (expField f bits) =? biasZ f * 2)
      || str_eqb (toBinary f q rounding) bits
  | _ => true
  end.

(** [-x] on the results of [toDecimal]. *)
Definition negate (x : number) : number :=
  match x with
  | NaN => NaN
  | PosInfinity => NegInfinity
  | NegInfinity => PosInfinity
  | Fin q => Fin (- q)
  end.

(** Two results that are the same number (rationals up to their fraction
    being reduced); NaN is only the same as NaN. *)
Definition sameNumber (x y : number) : Prop :=
  match x, y with
  | NaN, NaN => True
  | PosInfinity, PosInfinity => True
  | NegInfinity, NegInfinity => True
  | Fin p, Fin q => (p == q)%Q
  | _, _ => False
  end.

(** The sign [toDecimal] reads off the first character. *)
Definition signOf (bits : str) : Z :=
  match charAt bits 0 with
  | Some c => if digitVal c =? 0 then 1 else -1
  | None => -1
  end.

(** The significand of a representation as an integer: the mantissa field,
    with the implicit bit in front unless the exponent field is zero. *)
Definition significand (f : Float) (bits : str) : Z :=
  (if binVal (expField f bits) =? 0 then 0 else 2 ^ mantBits f)
  + binVal (mantField f bits).

(** The power of two the significand is scaled by. *)
Definition scale (f : Float) (bits : str) : Z :=
  Z.max (binVal (expField f bits)) 1 - biasZ f - mantBits f.

(** ** _unexponentiate *)

(** [_unexponentiate(num)] works on the text [String(num)] and on the test
    [num < 0]; the embedding takes both as arguments.  [Number], applied to
    the text after the exponent mark, is an argument too.  [fuel] bounds the
    tests of each of the two loops; [None] means that the bound was reached.
    A loop that the source cannot leave (an infinite [mag]) is [None] for
    every bound. *)

Definition isE (c : ascii) : bool := Ascii.eqb c "e" || Ascii.eqb c "E".

(** A text without exponent mark. *)
Definition noE (x : str) : Prop := Forall (fun c => isE c = false) x.

(** [x.split(/[eE]/)] *)
Fixpoint splitE (x : str) : list str :=
  match x with
  | [] => [[]]
  | c :: r =>
      if isE c then [] :: splitE r
      else match splitE r with
           | p :: ps => (c :: p) :: ps
           | [] => [[c]]
           end
  end.

(** [x.replace('.', '')]: the first dot only. *)
Fixpoint removeFirstDot (x : str) : str :=
  match x with
  | [] => []
  | c :: r => if Ascii.eqb c "." then r else c :: removeFirstDot r
  end.

(** [x.replace(/^\-/, '')] *)
Definition stripMinus (x : str) : str :=
  match x with
  | c :: r => if Ascii.eqb c "-" then r else x
  | [] => []
  end.

(** A number used as a condition: true unless it is zero. *)
Definition truthy (mag : Q) : bool := negb (Qeq_bool mag 0).

(** [while (mag++) z += '0'] and [while (mag--) z += '0'], on the pair
    [(mag, z)]; [step] is [1] or [-1]. *)
Definition zerosLoop (fuel : nat) (step : Q) (mag : Q) (z : str)
  : option (Q * str) :=
  while fuel (fun st => truthy (fst st))
        (fun st => ((fst st + step)%Q, snd st ++ ["0"%char])) (mag, z).

Definition _unexponentiate (Number_ : str -> number) (fuel : nat)
  (String_num : str) (negative : bool) : option str :=
  match splitE String_num with
  | [] => None
  | [d0] => Some d0
  | d0 :: d1 :: _ =>
      let sign := if negative then ["-"%char] else [] in
      let str_ := removeFirstDot d0 in
      match Number_ d1 with
      | NaN => Some (str_ ++ [])
      | PosInfinity => None
      | NegInfinity => None
      | Fin x =>
          let mag := (x + 1)%Q in
          if Qgtb 0 mag then
            match zerosLoop fuel 1 mag (sign ++ ["0"%char; "."%char]) with
            | Some st => Some (snd st ++ stripMinus str_)
            | None => None
            end
          else
            match zerosLoop fuel (-1) (mag - inject_Z (len str_)) [] with
            | Some st => Some (str_ ++ snd st)
            | None => None
            end
      end
  end.

(** [Number] on the texts that follow the exponent mark in [String(num)]: an
    optional sign and decimal digits.  Other texts are not modelled (NaN). *)
Definition digitOf (c : ascii) : Z := Z.of_nat (nat_of_ascii c) - 48.

Definition isDigit (c : ascii) : bool :=
  (48 <=? nat_of_ascii c)%nat && (nat_of_ascii c <=? 57)%nat.

Definition digitsVal (x : str) : Z :=
  fold_left (fun a c => 10 * a + digitOf c) x 0.

Definition NumberInt (x : str) : number :=
  match x with
  | [] => NaN
  | c :: r =>
      if Ascii.eqb c "-" then
        match r with
        | [] => NaN
        | _ => if forallb isDigit r then Fin (inject_Z (- digitsVal r)) else NaN
        end
      else if Ascii.eqb c "+" then
        match r with
        | [] => NaN
        | _ => if forallb isDigit r then Fin (inject_Z (digitsVal r)) else NaN
        end
      else if forallb isDigit x then Fin (inject_Z (digitsVal x)) else NaN
  end.

(** The number a plain decimal text stands for: an optional "-", digits, and
    optionally a dot and more digits. *)
Fixpoint splitDot (x : str) : str * str :=
  match x with
  | [] => ([], [])
  | c :: r =>
      if Ascii.eqb c "." then ([], r)
      else let (ip, fp) := splitDot r in (c :: ip, fp)
  end.

Definition pow10 (k : Z) : Q := Qpower 10 k.

Definition plainValue (x : str) : Q :=
  let neg := match x with c :: _ => Ascii.eqb c "-" | [] => false end in
  let (ip, fp) := splitDot (stripMinus x) in
  ((if neg then -1 else 1)
   * (inject_Z (digitsVal ip) + inject_Z (digitsVal fp) * pow10 (- len fp)))%Q.

(** The text before the exponent mark in [String(num)]: "-" for a negative
    number, one digit, and the further digits, if any, after a dot. *)
Definition mantissaText (negative : bool) (d : ascii) (fp : str) : str :=
  (if negative then ["-"%char] else [])
  ++ d :: match fp with [] => [] | _ => "."%char :: fp end.

(** ** The documented example *)

Example toBinary_doc_rounding :
  toBinary (constructor 4 3) (-(9#4)) true = s "11000001".
Proof. vm_compute. reflexivity. Qed.

Example toBinary_doc_no_rounding :
  toBinary (constructor 4 3) (-(9#4)) false = s "11000001".
Proof. vm_compute. reflexivity. Qed.

Example toDecimal_doc :
  exists q, toDecimal (constructor 4 3) (s "11000001") = Fin q /\ (q == -(9#4))%Q.
Proof. eexists. split; [vm_compute; reflexivity | reflexivity]. Qed.

(** ** Basic facts on strings *)

Lemma len_app (x y : str) : len (x ++ y) = len x + len y.
Proof. unfold len. rewrite length_app. lia. Qed.

Lemma len_rep (c : ascii) (n : Z) : 0 <= n -> len (rep c n) = n.
Proof. intros H. unfold len, rep. rewrite repeat_length. lia. Qed.

Lemma len_nonneg (x : str) : 0 <= len x.
Proof. unfold len. lia. Qed.

Lemma len_cons (c : ascii) (x : str) : len (c :: x) = 1 + len x.
Proof. unfold len. simpl length. lia. Qed.

(** A substring that starts after the first character is a substring of the
    tail. *)
Lemma substring_cons (c : ascii) (x : str) (a b : Z) :
  1 <= a -> 1 <= b -> substring (c :: x) a b = substring x (a - 1) (b - 1).
Proof.
  intros Ha Hb. unfold substring, clamp. rewrite len_cons.
  pose proof (len_nonneg x) as Hx.
  set (lo := Z.min (Z.min (Z.max 0 a) (1 + len x)) (Z.min (Z.max 0 b) (1 + len x))).
  set (hi := Z.max (Z.min (Z.max 0 a) (1 + len x)) (Z.min (Z.max 0 b) (1 + len x))).
  set (lo' := Z.min (Z.min (Z.max 0 (a - 1)) (len x)) (Z.min (Z.max 0 (b - 1)) (len x))).
  set (hi' := Z.max (Z.min (Z.max 0 (a - 1)) (len x)) (Z.min (Z.max 0 (b - 1)) (len x))).
  assert (Hlo : lo = lo' + 1) by (subst lo lo'; lia).
  assert (Hhi : hi = hi' + 1) by (subst hi hi'; lia).
  assert (H0 : 0 <= lo') by (subst lo'; lia).
  rewrite Hlo, Hhi.
  replace (hi' + 1 - (lo' + 1)) with (hi' - lo') by lia.
  replace (Z.to_nat (lo' + 1)) with (S (Z.to_nat lo')) by lia.
  reflexivity.
Qed.

(** The first [len x] characters of [x ++ y]. *)
Lemma substring_prefix (x y : str) : substring (x ++ y) 0 (len x) = x.
Proof.
  unfold substring, clamp. rewrite len_app.
  pose proof (len_nonneg x) as Hx. pose proof (len_nonneg y) as Hy.
  replace (Z.min (Z.min (Z.max 0 0) (len x + len y))
                 (Z.min (Z.max 0 (len x)) (len x + len y))) with 0 by lia.
  replace (Z.max (Z.min (Z.max 0 0) (len x + len y))
                 (Z.min (Z.max 0 (len x)) (len x + len y))) with (len x) by lia.
  simpl skipn. rewrite Z.sub_0_r. unfold len. rewrite Nat2Z.id.
  rewrite firstn_app, firstn_all, Nat.sub_diag. simpl. apply app_nil_r.
Qed.

(** The characters of [x ++ y] after the first [len x]. *)
Lemma substring_suffix (x y : str) :
  substring (x ++ y) (len x) (len x + len y) = y.
Proof.
  unfold substring, clamp. rewrite len_app.
  pose proof (len_nonneg x) as Hx. pose proof (len_nonneg y) as Hy.
  replace (Z.min (Z.min (Z.max 0 (len x)) (len x + len y))
                 (Z.min (Z.max 0 (len x + len y)) (len x + len y)))
    with (len x) by lia.
  replace (Z.max (Z.min (Z.max 0 (len x)) (len x + len y))
                 (Z.min (Z.max 0 (len x + len y)) (len x + len y)))
    with (len x + len y) by lia.
  replace (len x + len y - len x) with (len y) by lia.
  unfold len. rewrite !Nat2Z.id.
  rewrite skipn_app, skipn_all, Nat.sub_diag. simpl. apply firstn_all.
Qed.

(** The three fields of [sign :: exponent ++ mantissa]. *)
Lemma fields_of_concat (f : Float) (sg : ascii) (ex ma : str) :
  len ex = expBits f -> len ma = mantBits f ->
  signField (sg :: ex ++ ma) = [sg]
  /\ expField f (sg :: ex ++ ma) = ex
  /\ mantField f (sg :: ex ++ ma) = ma.
Proof.
  intros He Hm.
  pose proof (len_nonneg ex) as Hx. pose proof (len_nonneg ma) as Hy.
  split; [|split].
  - unfold signField. change (sg :: ex ++ ma) with ([sg] ++ (ex ++ ma)).
    apply (substring_prefix [sg]).
  - unfold expField. rewrite substring_cons by lia.
    replace (1 + expBits f - 1) with (len ex) by lia.
    replace (1 - 1) with 0 by lia. apply substring_prefix.
  - unfold mantField. rewrite substring_cons by lia.
    replace (1 + expBits f - 1) with (len ex) by lia.
    replace (1 + expBits f + mantBits f - 1) with (len ex + len ma) by lia.
    apply substring_suffix.
Qed.

Lemma binVal_loop_zeros (n : nat) (acc : Z) :
  fold_left (fun a c => 2 * a + digitVal c) (repeat c0 n) acc = acc * 2 ^ Z.of_nat n.
Proof.
  revert acc. induction n as [|n IH]; intros acc.
  - simpl. lia.
  - cbn [repeat fold_left]. rewrite IH. change (digitVal c0) with 0.
    rewrite Nat2Z.inj_succ, Z.pow_succ_r by lia. lia.
Qed.

Lemma binVal_loop_ones (n : nat) (acc : Z) :
  fold_left (fun a c => 2 * a + digitVal c) (repeat c1 n) acc
  = (acc + 1) * 2 ^ Z.of_nat n - 1.
Proof.
  revert acc. induction n as [|n IH]; intros acc.
  - simpl. lia.
  - cbn [repeat fold_left]. rewrite IH. change (digitVal c1) with 1.
    rewrite Nat2Z.inj_succ, Z.pow_succ_r by lia. lia.
Qed.

Lemma binVal_zeros (n : Z) : binVal (rep c0 n) = 0.
Proof. unfold binVal, rep. rewrite binVal_loop_zeros. lia. Qed.

Lemma binVal_ones (n : Z) : 0 <= n -> binVal (rep c1 n) = 2 ^ n - 1.
Proof.
  intros H. unfold binVal, rep. rewrite binVal_loop_ones.
  rewrite Z2Nat.id by lia. lia.
Qed.

Lemma parseInt2_rep (c : ascii) (n : Z) :
  1 <= n -> parseInt2 (rep c n) = Some (binVal (rep c n)).
Proof.
  intros H. unfold rep. destruct (Z.to_nat n) as [|k] eqn:E; [lia|reflexivity].
Qed.

Lemma existsb_repeat_false {A : Type} (p : A -> bool) (a : A) (n : nat) :
  p a = false -> existsb p (repeat a n) = false.
Proof. intros H. induction n; simpl; [reflexivity | now rewrite H]. Qed.

(** ** The bias of a descriptor with at least one exponent bit *)

Lemma pow2_nonneg_Z (k : Z) : 0 <= k -> (pow2 k == inject_Z (2 ^ k))%Q.
Proof. intros H. unfold pow2. now rewrite Zpower_Qpower. Qed.

Lemma biasZ_constructor (e m : Z) :
  1 <= e -> biasZ (constructor e m) = 2 ^ (e - 1) - 1.
Proof.
  intros H. unfold biasZ, constructor, bias.
  assert (E : (pow2 (e - 1) - 1 == inject_Z (2 ^ (e - 1) - 1))%Q).
  { rewrite pow2_nonneg_Z by lia. unfold Z.sub at 2.
    rewrite inject_Z_plus. reflexivity. }
  rewrite (Qfloor_comp _ _ E). apply Qfloor_Z.
Qed.

Lemma biasZ_nonneg (e m : Z) : 1 <= e -> 0 <= biasZ (constructor e m).
Proof.
  intros H. rewrite biasZ_constructor by lia.
  assert (0 < 2 ^ (e - 1)) by (apply Z.pow_pos_nonneg; lia). lia.
Qed.

Lemma double_bias (e m : Z) :
  1 <= e -> biasZ (constructor e m) * 2 = 2 ^ e - 2.
Proof.
  intros H. rewrite biasZ_constructor by lia.
  replace e with (Z.succ (e - 1)) at 2 by lia.
  rewrite Z.pow_succ_r by lia. lia.
Qed.

(** ** toDecimal on a well-formed representation *)

Lemma allBin_existsb (x : str) :
  allBin x -> existsb (fun c => negb (isBinChar c)) x = false.
Proof.
  induction 1 as [|c r Hc _ IH]; simpl; [reflexivity|].
  now rewrite Hc, IH.
Qed.

Lemma allBin_rep (c : ascii) (n : Z) : isBinChar c = true -> allBin (rep c n).
Proof.
  intros H. unfold allBin, rep. apply Forall_forall.
  intros x Hx. apply repeat_spec in Hx. now subst.
Qed.

Lemma allBin_app (x y : str) : allBin x -> allBin y -> allBin (x ++ y).
Proof. intros. now apply Forall_app. Qed.

(** [toDecimal] on [sign :: exponent ++ mantissa] reads the three fields. *)
Lemma toDecimal_concat (f : Float) (sg : ascii) (ex ma : str) :
  totalBits f = 1 + expBits f + mantBits f ->
  len ex = expBits f -> len ma = mantBits f ->
  isBinChar sg = true -> allBin ex -> allBin ma ->
  toDecimal f (sg :: ex ++ ma) =
    let sign := if digitVal sg =? 0 then 1 else -1 in
    match parseInt2 ex with
    | None => NaN
    | Some rawExp =>
        if rawExp >? biasZ f * 2 then
          if (rawExp =? biasZ f * 2 + 1)
             && match parseInt2 ma with Some 0 => true | _ => false end
          then signedInfinity sign
          else NaN
        else if rawExp =? 0 then
          Fin (inject_Z sign * _binaryFracToDec ma * pow2 (1 - biasZ f))%Q
        else
          Fin (inject_Z sign * (1 + _binaryFracToDec ma)
               * pow2 (rawExp - biasZ f))%Q
    end.
Proof.
  intros Ht He Hm Hs Hx Hy.
  destruct (fields_of_concat f sg ex ma He Hm) as (_ & HE & HM).
  unfold toDecimal.
  assert (Hl : (len (sg :: ex ++ ma) =? totalBits f) = true).
  { apply Z.eqb_eq. rewrite len_cons, len_app. lia. }
  rewrite Hl. cbn [negb].
  assert (Hall : allBin (sg :: ex ++ ma)).
  { constructor; [exact Hs | apply allBin_app; assumption]. }
  rewrite (allBin_existsb _ Hall).
  unfold expField in HE. unfold mantField in HM. rewrite HE, HM.
  reflexivity.
Qed.

Lemma rep_split (c : ascii) (a b : Z) :
  0 <= a -> 0 <= b -> rep c (a + b) = rep c a ++ rep c b.
Proof.
  intros Ha Hb. unfold rep. rewrite Z2Nat.inj_add by lia. apply repeat_app.
Qed.

Lemma rep_succ (c : ascii) (n : Z) : 0 <= n -> rep c (1 + n) = c :: rep c n.
Proof. intros H. rewrite rep_split by lia. reflexivity. Qed.

Lemma binaryFracToDec_loop_zeros (n : nat) (i : Z) (num : Q) :
  (binaryFracToDec_loop (repeat c0 n) i num == num)%Q.
Proof.
  revert i num. induction n as [|n IH]; intros i num; simpl.
  - reflexivity.
  - rewrite IH. change (digitVal c0) with 0. ring.
Qed.

Lemma binaryFracToDec_zeros (n : Z) : (_binaryFracToDec (rep c0 n) == 0)%Q.
Proof. unfold _binaryFracToDec, rep. apply binaryFracToDec_loop_zeros. Qed.

(** ** Malformed input of toDecimal *)

(** C6: a string whose length is not [totalBits], or that holds a character
    other than "0" and "1", is decoded to NaN (a value is returned, nothing is
    thrown: [toDecimal] is a total function into [number]). *)
Theorem toDecimal_malformed (f : Float) (bits : str) :
  len bits <> totalBits f
  \/ (exists c, In c bits /\ c <> c0 /\ c <> c1) ->
  toDecimal f bits = NaN.
Proof.
  intros H. unfold toDecimal.
  destruct (len bits =? totalBits f) eqn:E; cbn [negb]; [|reflexivity].
  destruct H as [H | (c & Hin & H0 & H1)].
  - apply Z.eqb_eq in E. contradiction.
  - assert (Hex : existsb (fun c => negb (isBinChar c)) bits = true).
    { apply existsb_exists. exists c. split; [exact Hin|].
      unfold isBinChar.
      destruct (Ascii.eqb c c0) eqn:E0; [apply Ascii.eqb_eq in E0; contradiction|].
      destruct (Ascii.eqb c c1) eqn:E1; [apply Ascii.eqb_eq in E1; contradiction|].
      reflexivity. }
    now rewrite Hex.
Qed.

Lemma toDecimal_malformed_witness :
  toDecimal (constructor 4 3) (s "1100") = NaN
  /\ toDecimal (constructor 4 3) (s "1100x001") = NaN.
Proof.
  split.
  - apply toDecimal_malformed. left. vm_compute. discriminate.
  - apply toDecimal_malformed. right. exists "x"%char.
    split; [vm_compute; tauto | split; discriminate].
Defined.

(** ** The constructor *)



(** ** Decoding the two zero patterns *)

(** C10: with at least one exponent bit, the all-zeros string and the string
    "1" followed by zeros both decode through the subnormal formula
    [sign * mantissa * 2^(1 - bias)], to a number equal to zero. *)
Theorem toDecimal_zero_patterns (e m : Z) :
  1 <= e -> 0 <= m ->
  let f := constructor e m in
  (exists q, toDecimal f (rep c0 (totalBits f)) = Fin q
    /\ q = (inject_Z 1 * _binaryFracToDec (rep c0 m) * pow2 (1 - biasZ f))%Q
    /\ (q == 0)%Q)
  /\ (exists q, toDecimal f (c1 :: rep c0 (totalBits f - 1)) = Fin q
    /\ q = (inject_Z (-1) * _binaryFracToDec (rep c0 m) * pow2 (1 - biasZ f))%Q
    /\ (q == 0)%Q).
Proof.
  intros He Hm f.
  assert (Hnb : biasZ f * 2 >= 0) by (pose proof (biasZ_nonneg e m He); subst f; lia).
  assert (Hgt : (0 >? biasZ f * 2) = false) by (rewrite Z.gtb_ltb; apply Z.ltb_ge; lia).
  assert (Hdec : forall sg, isBinChar sg = true ->
     toDecimal f (sg :: rep c0 e ++ rep c0 m)
     = Fin (inject_Z (if digitVal sg =? 0 then 1 else -1)
            * _binaryFracToDec (rep c0 m) * pow2 (1 - biasZ f))%Q).
  { intros sg Hsg.
    rewrite (toDecimal_concat f sg (rep c0 e) (rep c0 m));
      [ | reflexivity | apply len_rep; simpl; lia | apply len_rep; simpl; lia
        | exact Hsg | now apply allBin_rep | now apply allBin_rep ].
    cbv zeta. rewrite parseInt2_rep by lia. rewrite binVal_zeros.
    rewrite Hgt. reflexivity. }
  split.
  - eexists. split; [|split; [reflexivity|]].
    + change (totalBits f) with (1 + e + m).
      rewrite <- Z.add_assoc, rep_succ, rep_split by lia.
      apply (Hdec c0). reflexivity.
    + rewrite binaryFracToDec_zeros. ring.
  - eexists. split; [|split; [reflexivity|]].
    + change (totalBits f) with (1 + e + m).
      replace (1 + e + m - 1) with (e + m) by lia.
      rewrite rep_split by lia.
      apply (Hdec c1). reflexivity.
    + rewrite binaryFracToDec_zeros. ring.
Qed.

Lemma toDecimal_zero_patterns_witness :
  exists q, toDecimal (constructor 4 3) (s "00000000") = Fin q /\ (q == 0)%Q.
Proof.
  destruct (toDecimal_zero_patterns 4 3 ltac:(lia) ltac:(lia)) as ((q & H & _ & Hq) & _).
  exists q. split; [exact H | exact Hq].
Defined.

(** ** The loop on the decimal part *)

Lemma truncQ_nonneg (q : Q) : (0 <= q)%Q -> truncQ q = Qfloor q.
Proof.
  destruct q as [n d]. unfold Qle, truncQ, Qfloor. simpl. intros H.
  apply Z.quot_div_nonneg; lia.
Qed.

(** The part after the dot of a number that is not negative lies in [0, 1). *)
Lemma frac_range (q : Q) :
  (0 <= q)%Q -> (0 <= q - inject_Z (truncQ q) /\ q - inject_Z (truncQ q) < 1)%Q.
Proof.
  intros H. rewrite (truncQ_nonneg q H).
  pose proof (Qfloor_le q) as Hl. pose proof (Qlt_floor q) as Hu.
  rewrite inject_Z_plus in Hu. split.
  - apply Qle_minus_iff in Hl. exact Hl.
  - apply Qlt_minus_iff in Hu. apply Qlt_minus_iff.
    setoid_replace (1 + - (q - inject_Z (Qfloor q)))%Q
      with (inject_Z (Qfloor q) + inject_Z 1 + - q)%Q by ring.
    exact Hu.
Qed.

Lemma decBody_inv (st : decState) : decInv st -> decInv (decBody st).
Proof.
  intros (Hi & Hl & H0 & H1). unfold decInv, decBody. cbn [iters decN _decBits].
  assert (Hnn : (0 <= decN st * 2)%Q).
  { apply Qmult_le_0_compat; [exact H0 | discriminate]. }
  destruct (frac_range _ Hnn) as [Ha Hb].
  repeat split; try assumption; try lia.
  rewrite length_app. simpl length. lia.
Qed.

Lemma while_decLoop (decNLim : Z) (k : nat) :
  forall (fuel : nat) (st : decState),
    decInv st -> iters st + Z.of_nat k = decNLim + 1 -> (k < fuel)%nat ->
    exists st', while fuel (decCond decNLim) decBody st = Some st'
      /\ decInv st' /\ iters st' <= decNLim + 1
      /\ decCond decNLim st' = false.
Proof.
  induction k as [|k IH]; intros fuel st Hinv Hk Hf.
  - destruct fuel as [|fuel]; [lia|]. cbn [while].
    assert (E : decCond decNLim st = false).
    { unfold decCond. replace (iters st <=? decNLim) with false; [reflexivity|].
      symmetry. apply Z.leb_gt. lia. }
    rewrite E. exists st. repeat split; try apply Hinv; try lia. exact E.
  - destruct fuel as [|fuel]; [lia|]. cbn [while].
    destruct (decCond decNLim st) eqn:E.
    + apply IH; [now apply decBody_inv | | lia].
      unfold decBody. cbn [iters]. lia.
    + exists st. repeat split; try apply Hinv; try lia. exact E.
Qed.

(** The run of the loop from a decimal part in [0, 1). *)
Lemma decLoop_run (f : Float) (d : Q) :
  0 <= totalBits f -> (0 <= d)%Q -> (d < 1)%Q ->
  exists st,
    decLoop f d = Some st
    /\ (forall fuel, (decFuel f <= fuel)%nat ->
          while fuel (decCond (totalBits f)) decBody (decInit d) = Some st)
    /\ 0 <= iters st <= totalBits f + 1
    /\ Z.of_nat (length (_decBits st)) = iters st
    /\ ((decN st == 0)%Q \/ iters st = totalBits f + 1).
Proof.
  intros Ht H0 H1.
  assert (Hinit : decInv (decInit d)).
  { unfold decInv, decInit. cbn. repeat split; try assumption; lia. }
  assert (Hk : iters (decInit d) + Z.of_nat (Z.to_nat (totalBits f + 1))
               = totalBits f + 1) by (cbn [decInit iters]; lia).
  destruct (while_decLoop (totalBits f) _ (decFuel f) (decInit d) Hinit Hk)
    as (st & Hw & (Hi & Hl & Hd0 & Hd1) & Hle & Hc).
  { unfold decFuel. lia. }
  exists st. split; [exact Hw|]. split; [|split; [lia|split; [exact Hl|]]].
  - intros fuel Hfuel.
    destruct (while_decLoop (totalBits f) _ fuel (decInit d) Hinit Hk)
      as (st2 & Hw2 & _).
    { unfold decFuel in Hfuel. lia. }
    rewrite Hw2. clear - Hw Hw2 Hfuel.
    revert Hw Hw2. unfold decLoop.
    generalize (decInit d) as st0. revert fuel Hfuel.
    induction (decFuel f) as [|n IH]; intros fuel Hfuel st0 Hw Hw2.
    + discriminate Hw.
    + destruct fuel as [|fuel]; [lia|]. cbn [while] in *.
      destruct (decCond (totalBits f) st0).
      * apply (IH fuel ltac:(lia) (decBody st0)); assumption.
      * congruence.
  - unfold decCond in Hc. apply andb_false_iff in Hc. destruct Hc as [Hc | Hc].
    + right. apply Z.leb_gt in Hc. lia.
    + left. unfold Qgtb in Hc. apply negb_false_iff, Qle_bool_iff in Hc.
      apply Qle_antisym; assumption.
Qed.

(** C7: the loop that produces the bits of the decimal part ends.  Run from a
    decimal part in [0, 1), it returns with any bound of at least
    [totalBits + 2] tests; it has made at most [totalBits + 1] turns and
    pushed one digit per turn; and it has stopped because the remainder is 0
    or because [totalBits + 1] turns were made. *)
Theorem decLoop_terminates (f : Float) (d : Q) :
  0 <= totalBits f -> (0 <= d)%Q -> (d < 1)%Q ->
  exists st,
    decLoop f d = Some st
    /\ (forall fuel, (decFuel f <= fuel)%nat ->
          while fuel (decCond (totalBits f)) decBody (decInit d) = Some st)
    /\ 0 <= iters st <= totalBits f + 1
    /\ Z.of_nat (length (_decBits st)) = iters st
    /\ ((decN st == 0)%Q \/ iters st = totalBits f + 1).
Proof. exact (decLoop_run f d). Qed.

Lemma decLoop_terminates_witness :
  exists st, decLoop (constructor 4 3) (1 # 4) = Some st
             /\ 0 <= iters st <= 9 /\ Z.of_nat (length (_decBits st)) = iters st.
Proof.
  destruct (decLoop_terminates (constructor 4 3) (1 # 4))
    as (st & H & _ & Hi & Hl & _).
  - vm_compute. discriminate.
  - vm_compute. discriminate.
  - vm_compute. reflexivity.
  - exists st. split; [exact H | split; [exact Hi | exact Hl]].
Defined.

(** ** Sign symmetry of toBinary *)

Lemma truncQ_opp (v : Q) : truncQ (- v) = - truncQ v.
Proof.
  destruct v as [n d]. unfold truncQ. simpl. apply Z.quot_opp_l. discriminate.
Qed.

Lemma toBinaryInt_opp (z : Z) : _toBinaryInt (- z) = _toBinaryInt z.
Proof. unfold _toBinaryInt. now rewrite Z.abs_opp. Qed.

Lemma Qabs_opp_eq (v : Q) : Qabs (- v) = Qabs v.
Proof. destruct v as [n d]. simpl. now rewrite Z.abs_opp. Qed.

Lemma decimal_part_opp (v : Q) (t : Z) :
  Qabs (- v - inject_Z (- t)) = Qabs (v - inject_Z t).
Proof.
  destruct v as [n d]. unfold Qminus, Qplus, Qopp, inject_Z, Qabs. simpl.
  f_equal. rewrite <- Z.abs_opp. f_equal. lia.
Qed.

(** Everything after the sign bit is computed from the magnitude. *)
Lemma toBinaryBody_opp (f : Float) (v : Q) (rounding : bool) :
  toBinaryBody f (- v) rounding = toBinaryBody f v rounding.
Proof.
  unfold toBinaryBody, normalMant.
  rewrite truncQ_opp, toBinaryInt_opp, decimal_part_opp, Qabs_opp_eq.
  reflexivity.
Qed.

Lemma signBit_opp (v : Q) : ~ (v == 0)%Q -> signBit (- v) <> signBit v.
Proof.
  intros Hv. unfold signBit, Qgtb.
  destruct (Qle_bool (- v) 0) eqn:E1; destruct (Qle_bool v 0) eqn:E2;
    cbn [negb]; try discriminate; exfalso.
  - apply Qle_bool_iff in E1, E2. apply Hv. apply Qle_antisym; [exact E2|].
    apply Qopp_le_compat in E1. rewrite Qopp_opp in E1. exact E1.
  - assert (H1 : ~ (- v <= 0)%Q) by (rewrite <- Qle_bool_iff; congruence).
    assert (H2 : ~ (v <= 0)%Q) by (rewrite <- Qle_bool_iff; congruence).
    apply Qnot_le_lt in H1, H2. apply (Qlt_irrefl 0).
    apply Qlt_trans with v; [exact H2|].
    apply Qopp_lt_compat in H1. rewrite Qopp_opp in H1. exact H1.
Qed.



(** ** _toBinaryInt *)

Lemma digitChar_mod2_one (n : Z) : n = 1 -> digitChar (n mod 2) = c1.
Proof. intros ->. reflexivity. Qed.

(** For a positive number the loop produces a leading "1" followed by
    [log2 n] digits (the bound on the turns is never what stops it). *)
Lemma toBinaryInt_loop_pos (fuel : nat) :
  forall (n : Z) (bits : str),
    0 < n -> n <= Z.of_nat fuel ->
    exists l, toBinaryInt_loop fuel n bits = c1 :: l ++ bits
              /\ len l = Z.log2 n.
Proof.
  induction fuel as [|k IH]; intros n bits Hn Hf; [lia|].
  cbn [toBinaryInt_loop].
  destruct (n / 2 >? 0) eqn:E.
  - assert (Hh : 0 < n / 2) by lia.
    assert (Hk : n / 2 <= Z.of_nat k).
    { assert (n / 2 < n) by (apply Z.div_lt; lia). lia. }
    destruct (IH (n / 2) (digitChar (n mod 2) :: bits) Hh Hk) as (l & Hl & Hlen).
    exists (l ++ [digitChar (n mod 2)]). split.
    + rewrite Hl. rewrite <- app_assoc. reflexivity.
    + rewrite len_app, Hlen. change (len [digitChar (n mod 2)]) with 1.
      rewrite <- Z.div2_div, Z.div2_spec, Z.log2_shiftr by lia.
      assert (H2 : 2 <= n).
      { destruct (Z.lt_ge_cases n 2); [|lia].
        rewrite Z.div_small in Hh by lia. lia. }
      assert (1 <= Z.log2 n).
      { apply Z.log2_le_pow2; [lia | change (2 ^ 1) with 2; lia]. }
      lia.
  - assert (H1 : n = 1).
    { assert (Hz : n / 2 <= 0) by lia.
      destruct (Z.eq_dec n 1) as [|Hne]; [assumption|exfalso].
      assert (0 < n / 2) by (apply Z.div_str_pos; lia). lia. }
    exists []. split; [now rewrite digitChar_mod2_one | subst n; reflexivity].
Qed.

Lemma toBinaryInt_pos (z : Z) :
  z <> 0 ->
  exists l, _toBinaryInt z = c1 :: l /\ len l = Z.log2 (Z.abs z).
Proof.
  intros Hz. unfold _toBinaryInt.
  destruct (toBinaryInt_loop_pos (Z.to_nat (Z.abs z)) (Z.abs z) [])
    as (l & Hl & Hlen); [lia | lia |].
  exists l. rewrite Hl, app_nil_r. auto.
Qed.

Lemma substring_nil (a b : Z) : substring [] a b = [].
Proof. unfold substring. rewrite skipn_nil. apply firstn_nil. Qed.

(** The binary digits of [2^k - 1] are [k] ones. *)
Lemma toBinaryInt_loop_ones (k : nat) :
  forall (fuel : nat) (bits : str),
    2 ^ Z.of_nat (S k) - 1 <= Z.of_nat fuel ->
    toBinaryInt_loop fuel (2 ^ Z.of_nat (S k) - 1) bits
    = repeat c1 (S k) ++ bits.
Proof.
  induction k as [|k IH]; intros fuel bits Hf.
  - change (2 ^ Z.of_nat 1 - 1) with 1 in *.
    destruct fuel; reflexivity.
  - set (n := 2 ^ Z.of_nat (S (S k)) - 1) in *.
    assert (Hp : 0 < 2 ^ Z.of_nat (S k)) by (apply Z.pow_pos_nonneg; lia).
    assert (Hn : n = 2 * (2 ^ Z.of_nat (S k) - 1) + 1).
    { subst n. rewrite (Nat2Z.inj_succ (S k)), Z.pow_succ_r by lia. lia. }
    assert (Hd : n / 2 = 2 ^ Z.of_nat (S k) - 1).
    { rewrite Hn. symmetry. apply (Z.div_unique _ 2 _ 1); lia. }
    assert (Hm : n mod 2 = 1).
    { rewrite Hn. symmetry. apply (Z.mod_unique _ 2 (2 ^ Z.of_nat (S k) - 1) 1); lia. }
    assert (H2 : 2 ^ 1 <= 2 ^ Z.of_nat (S k)) by (apply Z.pow_le_mono_r; lia).
    change (2 ^ 1) with 2 in H2.
    destruct fuel as [|fuel]; [lia|].
    cbn [toBinaryInt_loop]. rewrite Hm, Hd.
    replace (2 ^ Z.of_nat (S k) - 1 >? 0) with true
      by (symmetry; apply Z.gtb_lt; lia).
    rewrite IH by lia. change (digitChar 1) with c1.
    change (c1 :: bits) with ([c1] ++ bits). rewrite app_assoc.
    f_equal. rewrite <- repeat_cons. reflexivity.
Qed.

Lemma toBinaryInt_ones (e : Z) : 1 <= e -> _toBinaryInt (2 ^ e - 1) = rep c1 e.
Proof.
  intros He. unfold _toBinaryInt, rep.
  assert (Hp : 0 < 2 ^ e) by (apply Z.pow_pos_nonneg; lia).
  rewrite Z.abs_eq by lia.
  destruct (Z.to_nat e) as [|k] eqn:E; [lia|].
  replace e with (Z.of_nat (S k)) by lia.
  rewrite toBinaryInt_loop_ones by lia. apply app_nil_r.
Qed.

(** The exponent field of the branch [exp >= 0] has [expBits] characters. *)
Lemma expBits_len (e exp : Z) :
  0 <= e ->
  let raw := _toBinaryInt exp in
  let padded := rep c0 (Z.max 0 (e - len raw)) ++ raw in
  len (if len padded >? e then rep c1 e else padded) = e.
Proof.
  intros He raw padded.
  assert (Hp : len padded = Z.max 0 (e - len raw) + len raw).
  { subst padded. rewrite len_app, len_rep by lia. reflexivity. }
  pose proof (len_nonneg raw).
  destruct (len padded >? e) eqn:E.
  - apply len_rep; lia.
  - lia.
Qed.

(** The loop on a decimal part that is zero pushes nothing. *)
Lemma decBits_zero (f : Float) (d : Q) :
  Qle_bool d 0 = true ->
  match decLoop f d with Some st => join (_decBits st) | None => [] end = [].
Proof.
  intros H. unfold decLoop. destruct (decFuel f); cbn [while]; [reflexivity|].
  unfold decCond, Qgtb. cbn [decInit decN iters]. rewrite H.
  rewrite andb_false_r. reflexivity.
Qed.

(** ** Encoding zero *)

(** The branch [exp >= 0] with nothing left after the leading zeros are
    dropped gives a mantissa of zeros. *)
Lemma normalMant_nil (f : Float) (num : Q) (rounding inf : bool) (exp : Z) :
  0 <= mantBits f ->
  normalMant f num rounding inf exp [] = rep c0 (mantBits f).
Proof.
  intros Hm. unfold normalMant.
  destruct (inf || Qgtb (Qabs num) (maxAbs f)); [reflexivity|].
  change (len []) with 0.
  replace (0 <=? mantBits f) with true by (symmetry; apply Z.leb_le; lia).
  rewrite substring_nil. change (len []) with 0.
  rewrite Z.sub_0_r, Z.max_r by lia. reflexivity.
Qed.

(** The shape of the representation of zero: the sign bit "1", an exponent
    field of [expBits] characters, a mantissa of zeros. *)
Lemma toBinary_zero_shape (e m : Z) (rounding : bool) :
  1 <= e -> 0 <= m ->
  exists ex, len ex = e
    /\ toBinary (constructor e m) 0 rounding = c1 :: ex ++ rep c0 m.
Proof.
  intros He Hm. set (f := constructor e m).
  pose proof (biasZ_nonneg e m He) as Hb. fold f in Hb.
  unfold toBinary. change (signBit 0) with c1.
  unfold toBinaryBody.
  change (truncQ 0) with 0. change (_toBinaryInt 0) with [c0].
  rewrite decBits_zero by reflexivity.
  change (offsetExp [c0] []) with 0.
  change (stripZeros ([c0] ++ [])) with (@nil ascii).
  set (exp := if 0 - biasZ f =? 0 then 0 else 0 + biasZ f).
  assert (Hexp : 0 <= exp) by (subst exp; destruct (0 - biasZ f =? 0); lia).
  replace (exp <? 0) with false by (symmetry; apply Z.ltb_ge; exact Hexp).
  rewrite normalMant_nil by (simpl; lia).
  eexists. split; [|reflexivity].
  apply (expBits_len e exp). lia.
Qed.

(** C2, as the code has it: zero is not greater than zero, so its sign bit is
    "1"; its mantissa field is all zeros. *)
Theorem toBinary_zero (e m : Z) (rounding : bool) :
  1 <= e -> 0 <= m ->
  let f := constructor e m in
  signField (toBinary f 0 rounding) = [c1]
  /\ mantField f (toBinary f 0 rounding) = rep c0 m.
Proof.
  intros He Hm f.
  destruct (toBinary_zero_shape e m rounding He Hm) as (ex & Hlen & E).
  fold f in E. rewrite E.
  destruct (fields_of_concat f c1 ex (rep c0 m)) as (Hs & _ & Hma);
    [exact Hlen | exact (len_rep c0 m Hm) |].
  split; assumption.
Qed.

Lemma toBinary_zero_witness :
  signField (toBinary (constructor 4 3) 0 true) = [c1]
  /\ mantField (constructor 4 3) (toBinary (constructor 4 3) 0 true) = rep c0 3.
Proof. exact (toBinary_zero 4 3 true ltac:(lia) ltac:(lia)). Defined.

(** C2 as stated fails: in the format with 4 exponent bits and 3 mantissa
    bits, zero is encoded with sign bit "1" and exponent field "0111". *)
Lemma toBinary_zero_counterexample :
  toBinary (constructor 4 3) 0 true = s "10111000"
  /\ toBinary (constructor 4 3) 0 false = s "10111000"
  /\ signField (toBinary (constructor 4 3) 0 true) <> s "0"
  /\ expField (constructor 4 3) (toBinary (constructor 4 3) 0 true) <> s "0000".
Proof. repeat split; vm_compute; discriminate || reflexivity. Qed.

(** ** Magnitudes above maxAbs *)

Lemma Qgtb_lt (a b : Q) : Qgtb a b = true <-> (b < a)%Q.
Proof.
  unfold Qgtb. rewrite negb_true_iff. split; intros H.
  - apply Qnot_le_lt. rewrite <- Qle_bool_iff. congruence.
  - apply Qlt_not_le in H. rewrite <- Qle_bool_iff in H.
    now destruct (Qle_bool a b).
Qed.

Lemma maxAbs_constructor (e m : Z) :
  1 <= e -> 0 <= m ->
  (maxAbs (constructor e m) == inject_Z (2 ^ (e + m) - 1))%Q.
Proof.
  intros He Hm. unfold constructor, maxAbs.
  replace (1 + e + m - 1) with (e + m) by lia.
  rewrite pow2_nonneg_Z by lia. unfold Z.sub.
  rewrite inject_Z_plus. reflexivity.
Qed.

(** A magnitude above [maxAbs] has an integer part that is not zero. *)
Lemma truncQ_above_maxAbs (e m : Z) (v : Q) :
  1 <= e -> 0 <= m ->
  (maxAbs (constructor e m) < Qabs v)%Q -> truncQ v <> 0.
Proof.
  intros He Hm H. rewrite maxAbs_constructor in H by assumption.
  assert (H2 : 2 ^ 1 <= 2 ^ (e + m)) by (apply Z.pow_le_mono_r; lia).
  change (2 ^ 1) with 2 in H2.
  destruct v as [n d]. unfold Qlt, Qabs, inject_Z in H. simpl in H.
  unfold truncQ. simpl. intros E.
  apply Z.quot_small_iff in E; [|discriminate]. nia.
Qed.

Lemma offsetExp_lead1 (l decBits : str) : offsetExp (c1 :: l) decBits = len l.
Proof.
  unfold offsetExp. change (stripZeros (c1 :: l)) with (c1 :: l).
  change (includes1 (c1 :: l)) with true. cbv iota. rewrite len_cons. lia.
Qed.

Lemma normalMant_above (f : Float) (num : Q) (rounding inf : bool) (exp : Z)
  (nd : str) :
  Qgtb (Qabs num) (maxAbs f) = true ->
  normalMant f num rounding inf exp nd = rep c0 (mantBits f).
Proof. intros H. unfold normalMant. now rewrite H, orb_true_r. Qed.

(** The shape of the representation of a magnitude above [maxAbs]. *)
Lemma toBinaryBody_above (e m : Z) (v : Q) (rounding : bool) :
  1 <= e -> 0 <= m ->
  (maxAbs (constructor e m) < Qabs v)%Q ->
  exists ex, len ex = e
    /\ toBinaryBody (constructor e m) v rounding = ex ++ rep c0 m
    /\ (2 ^ e - 1 <= Z.log2 (Z.abs (truncQ v)) + biasZ (constructor e m) ->
        ex = rep c1 e).
Proof.
  intros He Hm Hv. set (f := constructor e m).
  pose proof (biasZ_nonneg e m He) as Hb. fold f in Hb.
  pose proof (truncQ_above_maxAbs e m v He Hm Hv) as Ht.
  destruct (toBinaryInt_pos (truncQ v) Ht) as (l & Hl & Hlen).
  apply Qgtb_lt in Hv. fold f in Hv.
  unfold toBinaryBody. rewrite Hl.
  set (decBits := match decLoop f (Qabs (v - inject_Z (truncQ v))) with
                  | Some st => join (_decBits st)
                  | None => []
                  end).
  rewrite offsetExp_lead1.
  pose proof (len_nonneg l) as Hl0.
  set (exp := if len l - biasZ f =? 0 then 0 else len l + biasZ f).
  assert (Hexp : 0 <= exp) by (subst exp; destruct (len l - biasZ f =? 0); lia).
  replace (exp <? 0) with false by (symmetry; apply Z.ltb_ge; exact Hexp).
  rewrite normalMant_above by exact Hv.
  eexists. split; [|split; [reflexivity|]].
  - apply (expBits_len e exp). lia.
  - intros Hbig. change (expBits f) with e.
    assert (Hexp2 : exp = len l + biasZ f).
    { subst exp. destruct (len l - biasZ f =? 0) eqn:E; [|reflexivity].
      apply Z.eqb_eq in E. pose proof (double_bias e m He) as Hd. fold f in Hd.
      lia. }
    assert (Hp : 0 < 2 ^ e) by (apply Z.pow_pos_nonneg; lia).
    destruct (Z.eq_dec exp (2 ^ e - 1)) as [Hone | Hmore].
    { rewrite Hone, toBinaryInt_ones by lia. rewrite len_rep by lia.
      replace (Z.max 0 (e - e)) with 0 by lia.
      change (rep c0 0 ++ rep c1 e) with (rep c1 e). rewrite len_rep by lia.
      replace (e >? e) with false by (symmetry; rewrite Z.gtb_ltb; apply Z.ltb_irrefl).
      reflexivity. }
    destruct (toBinaryInt_pos exp) as (l2 & Hl2 & Hlen2); [lia|].
    rewrite Hl2.
    assert (Hlog : e <= Z.log2 (Z.abs exp)).
    { apply Z.log2_le_pow2; lia. }
    rewrite len_cons, Hlen2.
    replace (Z.max 0 (e - (1 + Z.log2 (Z.abs exp)))) with 0 by lia.
    change (rep c0 0 ++ c1 :: l2) with (c1 :: l2).
    rewrite len_cons, Hlen2.
    replace (1 + Z.log2 (Z.abs exp) >? e) with true
      by (symmetry; apply Z.gtb_lt; lia).
    reflexivity.
Qed.

(** Decoding the pattern "exponent all ones, mantissa all zeros" of a format
    with a mantissa. *)
Lemma toDecimal_infinity_pattern (e m : Z) (sg : ascii) :
  1 <= e -> 1 <= m -> isBinChar sg = true ->
  toDecimal (constructor e m) (sg :: rep c1 e ++ rep c0 m)
  = signedInfinity (if digitVal sg =? 0 then 1 else -1).
Proof.
  intros He Hm Hs. set (f := constructor e m).
  rewrite (toDecimal_concat f sg (rep c1 e) (rep c0 m));
    [ | reflexivity | apply len_rep; simpl; lia | apply len_rep; simpl; lia
      | exact Hs | now apply allBin_rep | now apply allBin_rep ].
  cbv zeta. rewrite !parseInt2_rep by lia.
  rewrite binVal_zeros, binVal_ones by lia.
  pose proof (double_bias e m He) as Hd. fold f in Hd. rewrite Hd.
  replace (2 ^ e - 1 >? 2 ^ e - 2) with true by (symmetry; apply Z.gtb_lt; lia).
  replace (2 ^ e - 1 =? 2 ^ e - 2 + 1) with true by (symmetry; apply Z.eqb_eq; lia).
  reflexivity.
Qed.




(** ** Runs on which the code departs from its documentation *)

(** The round trip at zero, in the format with 4 exponent bits and 3 mantissa
    bits: zero
    is representable (it is what "00000000" decodes to), it is encoded as
    "10111000" with either rounding setting, and that decodes to -1. *)
Theorem roundtrip_zero_run :
  (exists q, toDecimal (constructor 4 3) (s "00000000") = Fin q /\ (q == 0)%Q)
  /\ (forall rounding, toBinary (constructor 4 3) 0 rounding = s "10111000")
  /\ (exists q, toDecimal (constructor 4 3) (s "10111000") = Fin q
                /\ (q == -1)%Q /\ ~ (q == 0)%Q).
Proof.
  split; [|split].
  - eexists. split; [vm_compute; reflexivity | reflexivity].
  - intros []; vm_compute; reflexivity.
  - eexists. split; [vm_compute; reflexivity | split; [reflexivity | discriminate]].
Qed.

(** A second run of the round trip, in the format with 2 exponent bits and 3
    mantissa bits: 2 is
    representable (it is what "010000" decodes to), it is encoded as "000100",
    and that decodes to 1/2.  The offset exponent equals the bias here, and
    the code then takes the biased exponent to be 0. *)
Theorem roundtrip_two_run :
  (exists q, toDecimal (constructor 2 3) (s "010000") = Fin q /\ (q == 2)%Q)
  /\ (forall rounding, toBinary (constructor 2 3) 2 rounding = s "000100")
  /\ (exists q, toDecimal (constructor 2 3) (s "000100") = Fin q
                /\ (q == 1 # 2)%Q).
Proof.
  split; [|split].
  - eexists. split; [vm_compute; reflexivity | reflexivity].
  - intros []; vm_compute; reflexivity.
  - eexists. split; [vm_compute; reflexivity | reflexivity].
Qed.

(** C4 at 23/16 = 1.0111 in binary, in the format with 4 exponent bits and 3
    mantissa bits: the retained bits are "011", the first bit beyond them is
    "1", and with rounding the mantissa field is still "011", not "100": the
    loop leaves a retained bit "1" as it is and stops at the first "0"
    without setting it. *)
Theorem rounding_increment_run :
  mantField (constructor 4 3) (toBinary (constructor 4 3) (23 # 16) false)
  = s "011"
  /\ charAt (stripZeros (_toBinaryInt 1 ++ s "0111")) (3 + 1) = Some c1
  /\ mantField (constructor 4 3) (toBinary (constructor 4 3) (23 # 16) true)
     = s "011"
  /\ rev (roundLoop 1 0 (rev (s "011"))) = s "011".
Proof. repeat split; vm_compute; reflexivity. Qed.

(** C5 in a format without mantissa (2 exponent bits): the exponent field of
    "011" is all ones and its mantissa field is empty, and the result is NaN,
    since [parseInt] of the empty string is NaN and not 0.  [toBinary] produces
    this very string for a magnitude that overflows. *)
Theorem toDecimal_no_mantissa_run :
  expField (constructor 2 0) (s "011") = s "11"
  /\ mantField (constructor 2 0) (s "011") = []
  /\ toDecimal (constructor 2 0) (s "011") = NaN
  /\ toBinary (constructor 2 0) 100 true = s "011".
Proof. repeat split; vm_compute; reflexivity. Qed.

(** ** Special values of toDecimal in a format with a mantissa *)

Lemma digitVal_range (c : ascii) : 0 <= digitVal c <= 1.
Proof. unfold digitVal. destruct (Ascii.eqb c c1); lia. Qed.

Lemma binVal_loop_bounds (x : str) :
  forall acc, 0 <= acc ->
    acc * 2 ^ len x
    <= fold_left (fun a c => 2 * a + digitVal c) x acc
    <= (acc + 1) * 2 ^ len x - 1.
Proof.
  induction x as [|c r IH]; intros acc Hacc.
  - change (len []) with 0. simpl. lia.
  - cbn [fold_left]. pose proof (digitVal_range c) as Hc.
    pose proof (len_nonneg r) as Hr.
    specialize (IH (2 * acc + digitVal c) ltac:(lia)).
    rewrite len_cons, Z.add_comm, Z.pow_add_r, Z.pow_1_r by lia.
    assert (Hp : 0 < 2 ^ len r) by (apply Z.pow_pos_nonneg; lia).
    nia.
Qed.

Lemma binVal_loop_zero (x : str) :
  allBin x ->
  forall acc, 0 <= acc ->
    fold_left (fun a c => 2 * a + digitVal c) x acc = 0 ->
    acc = 0 /\ x = repeat c0 (length x).
Proof.
  induction 1 as [|c r Hc _ IH]; intros acc Hacc E.
  - simpl in E. auto.
  - cbn [fold_left] in E. pose proof (digitVal_range c) as Hd.
    destruct (IH (2 * acc + digitVal c) ltac:(lia) E) as (H0 & Hr).
    split; [lia|]. cbn [length repeat]. rewrite <- Hr. f_equal.
    unfold isBinChar in Hc. apply orb_true_iff in Hc. destruct Hc as [Hc | Hc].
    + now apply Ascii.eqb_eq.
    + unfold digitVal in H0, Hd. rewrite Hc in H0. lia.
Qed.

(** In a format with at least one mantissa bit, a well-formed string whose raw
    exponent exceeds [2 * bias] has the raw exponent [2 * bias + 1]; it
    decodes to the signed infinity when its mantissa field is all zeros, and
    to NaN otherwise. *)
Lemma toDecimal_special (e m : Z) (sg : ascii) (ex ma : str) :
  1 <= e -> 1 <= m ->
  len ex = e -> len ma = m ->
  isBinChar sg = true -> allBin ex -> allBin ma ->
  let f := constructor e m in
  biasZ f * 2 < binVal ex ->
  binVal ex = biasZ f * 2 + 1
  /\ (ma = rep c0 m ->
      toDecimal f (sg :: ex ++ ma)
      = signedInfinity (if digitVal sg =? 0 then 1 else -1))
  /\ (ma <> rep c0 m -> toDecimal f (sg :: ex ++ ma) = NaN).
Proof.
  intros He Hm Hle Hlm Hs Hx Hy f Hbig.
  pose proof (double_bias e m He) as Hd. fold f in Hd.
  pose proof (binVal_loop_bounds ex 0 ltac:(lia)) as Hb. fold (binVal ex) in Hb.
  rewrite Hle in Hb.
  assert (Hraw : binVal ex = biasZ f * 2 + 1) by lia.
  assert (Hdec : toDecimal f (sg :: ex ++ ma)
                 = if match parseInt2 ma with Some 0 => true | _ => false end
                   then signedInfinity (if digitVal sg =? 0 then 1 else -1)
                   else NaN).
  { rewrite (toDecimal_concat f sg ex ma);
      [ | reflexivity | exact Hle | exact Hlm | exact Hs | exact Hx | exact Hy ].
    cbv zeta.
    assert (Hp : parseInt2 ex = Some (binVal ex)).
    { destruct ex; [change (len []) with 0 in Hle; lia | reflexivity]. }
    rewrite Hp.
    replace (binVal ex >? biasZ f * 2) with true by (symmetry; apply Z.gtb_lt; lia).
    replace (binVal ex =? biasZ f * 2 + 1) with true
      by (symmetry; apply Z.eqb_eq; lia).
    reflexivity. }
  split; [exact Hraw|]. split.
  - intros ->. rewrite Hdec, parseInt2_rep, binVal_zeros by lia. reflexivity.
  - intros Hne. rewrite Hdec.
    destruct ma as [|c r]; [reflexivity|]. cbn [parseInt2].
    destruct (binVal (c :: r)) as [| p | p] eqn:E; try reflexivity.
    exfalso. apply Hne.
    destruct (binVal_loop_zero (c :: r) Hy 0 ltac:(lia) E) as (_ & Hr).
    rewrite Hr at 1. unfold rep. f_equal. unfold len in Hlm. lia.
Qed.

(** ** The round trip in the documented format *)

Lemma bitStrings_complete (n : nat) (x : str) :
  length x = n -> allBin x -> In x (bitStrings n).
Proof.
  revert x. induction n as [|n IH]; intros x Hn Hx.
  - destruct x; [now left | discriminate].
  - destruct x as [|c r]; [discriminate|]. injection Hn as Hn.
    inversion Hx as [|? ? Hc Hr]; subst.
    cbn [bitStrings]. apply in_or_app.
    unfold isBinChar in Hc. apply orb_true_iff in Hc.
    destruct Hc as [Hc | Hc]; apply Ascii.eqb_eq in Hc; subst c;
      [left | right]; apply in_map; now apply IH.
Qed.

Lemma roundtrips_4_3 (rounding : bool) :
  forallb (roundtrips (constructor 4 3) rounding) (bitStrings 8) = true.
Proof. destruct rounding; vm_compute; reflexivity. Qed.

(** In the format with 4 exponent bits and 3 mantissa bits, every
    representation of a finite number other than zero whose raw exponent is
    not 14 (twice the bias) is what [toBinary] returns for the number it
    decodes to, with either rounding setting. *)
Theorem roundtrip_4_3 (bits : str) (q : Q) (rounding : bool) :
  len bits = 8 -> allBin bits ->
  toDecimal (constructor 4 3) bits = Fin q ->
  ~ (q == 0)%Q ->
  binVal (expField (constructor 4 3) bits) <> 14 ->
  toBinary (constructor 4 3) q rounding = bits
  /\ toDecimal (constructor 4 3) (toBinary (constructor 4 3) q rounding) = Fin q.
Proof.
  intros Hl Hb Hd Hq Hx.
  assert (Hin : In bits (bitStrings 8)).
  { apply bitStrings_complete; [unfold len in Hl; lia | exact Hb]. }
  pose proof (roundtrips_4_3 rounding) as Hall.
  rewrite forallb_forall in Hall. specialize (Hall bits Hin).
  unfold roundtrips in Hall. rewrite Hd in Hall.
  apply orb_true_iff in Hall. destruct Hall as [Hall | Hall].
  - apply orb_true_iff in Hall. destruct Hall as [Hz | He].
    + apply Qeq_bool_iff in Hz. contradiction.
    + apply Z.eqb_eq in He. change (biasZ (constructor 4 3) * 2) with 14 in He.
      contradiction.
  - unfold str_eqb in Hall.
    destruct (list_eq_dec ascii_dec (toBinary (constructor 4 3) q rounding) bits)
      as [E | E]; [|discriminate].
    split; [exact E | now rewrite E].
Qed.

(** ** What the rounding loop computes *)

Lemma binChar_cases (c : ascii) : isBinChar c = true -> c = c0 \/ c = c1.
Proof.
  unfold isBinChar. intros H. apply orb_true_iff in H.
  destruct H as [H | H]; apply Ascii.eqb_eq in H; auto.
Qed.

(** A first trimmed bit "0" leaves the retained bits as they are. *)
Lemma roundLoop_sum0 (data : str) : allBin data -> roundLoop 0 0 data = data.
Proof.
  intros H. destruct H as [|c r Hc _]; [reflexivity|].
  destruct (binChar_cases c Hc) as [-> | ->]; reflexivity.
Qed.

(** Once the carry is set, the loop rewrites every bit with its own value. *)
Lemma roundLoop_carry (data : str) : allBin data -> roundLoop 1 1 data = data.
Proof.
  induction 1 as [|c r Hc _ IH]; [reflexivity|].
  destruct (binChar_cases c Hc) as [-> | ->].
  - reflexivity.
  - change (roundLoop 1 1 (c1 :: r)) with (c1 :: roundLoop 1 1 r).
    now rewrite IH.
Qed.

(** A first trimmed bit "1" sets the last retained bit to "1" and changes
    nothing else: the retained bits are incremented only when they end
    in "0". *)
Lemma roundLoop_sum1 (c : ascii) (r : str) :
  isBinChar c = true -> allBin r -> roundLoop 1 0 (c :: r) = c1 :: r.
Proof.
  intros Hc Hr. destruct (binChar_cases c Hc) as [-> | ->].
  - reflexivity.
  - change (roundLoop 1 0 (c1 :: r)) with (c1 :: roundLoop 1 1 r).
    now rewrite roundLoop_carry.
Qed.

(** ** Binary digit strings as numbers *)

Lemma binVal_acc (x : str) (acc : Z) :
  fold_left (fun a c => 2 * a + digitVal c) x acc = acc * 2 ^ len x + binVal x.
Proof.
  revert acc. induction x as [|c r IH]; intros acc.
  - change (len []) with 0. unfold binVal. simpl. lia.
  - unfold binVal. cbn [fold_left]. rewrite (IH (2 * acc + digitVal c)).
    rewrite (IH (2 * 0 + digitVal c)). pose proof (len_nonneg r).
    rewrite len_cons, Z.add_comm, Z.pow_add_r, Z.pow_1_r by lia. lia.
Qed.

Lemma binVal_cons (c : ascii) (x : str) :
  binVal (c :: x) = digitVal c * 2 ^ len x + binVal x.
Proof.
  unfold binVal at 1. cbn [fold_left]. rewrite binVal_acc. lia.
Qed.

Lemma binVal_app (x y : str) : binVal (x ++ y) = binVal x * 2 ^ len y + binVal y.
Proof.
  unfold binVal at 1. rewrite fold_left_app. fold (binVal x). apply binVal_acc.
Qed.

Lemma binVal_bounds (x : str) : 0 <= binVal x < 2 ^ len x.
Proof.
  pose proof (binVal_loop_bounds x 0 ltac:(lia)) as H. fold (binVal x) in H. lia.
Qed.

Lemma binChar_digit (c d : ascii) :
  isBinChar c = true -> isBinChar d = true -> digitVal c = digitVal d -> c = d.
Proof.
  intros Hc Hd.
  destruct (binChar_cases c Hc) as [-> | ->];
    destruct (binChar_cases d Hd) as [-> | ->]; (reflexivity || discriminate).
Qed.

(** Two strings of binary digits of one length and one value are equal. *)
Lemma binVal_unique (x : str) :
  forall y, allBin x -> allBin y -> len x = len y -> binVal x = binVal y -> x = y.
Proof.
  induction x as [|c r IH]; intros y Hx Hy Hl Hv.
  - destruct y; [reflexivity|]. rewrite len_cons in Hl.
    pose proof (len_nonneg y). change (len []) with 0 in Hl. lia.
  - destruct y as [|d t].
    + rewrite len_cons in Hl. pose proof (len_nonneg r).
      change (len []) with 0 in Hl. lia.
    + inversion Hx as [|? ? Hc Hr]; subst. inversion Hy as [|? ? Hd Ht]; subst.
      rewrite !len_cons in Hl. assert (Hl' : len r = len t) by lia.
      rewrite !binVal_cons, Hl' in Hv.
      pose proof (binVal_bounds r) as Br. pose proof (binVal_bounds t) as Bt.
      rewrite Hl' in Br.
      pose proof (digitVal_range c) as Rc. pose proof (digitVal_range d) as Rd.
      assert (Hdig : digitVal c = digitVal d) by nia.
      rewrite Hdig in Hv.
      f_equal; [now apply binChar_digit | apply IH; try assumption; lia].
Qed.

Lemma binVal_rep0_app (x : str) (n : Z) : binVal (rep c0 n ++ x) = binVal x.
Proof. rewrite binVal_app, binVal_zeros. lia. Qed.

Lemma binVal_app_rep0 (x : str) (n : Z) :
  0 <= n -> binVal (x ++ rep c0 n) = binVal x * 2 ^ n.
Proof. intros H. rewrite binVal_app, binVal_zeros, len_rep by lia. lia. Qed.

(** A string and a field of [m] digits that stand for the same binary
    fraction: the string, cut or filled with zeros to [m] digits, is the
    field. *)
Lemma pad_unique (x ma : str) :
  allBin x -> allBin ma ->
  binVal x * 2 ^ len ma = binVal ma * 2 ^ len x ->
  (len x <= len ma -> x ++ rep c0 (len ma - len x) = ma)
  /\ (len ma <= len x -> x = ma ++ rep c0 (len x - len ma)).
Proof.
  intros Hx Hma Hv.
  pose proof (len_nonneg x) as Lx. pose proof (len_nonneg ma) as Lm.
  split; intros Hle.
  - apply binVal_unique;
      [ apply allBin_app; [exact Hx | now apply allBin_rep] | exact Hma
      | rewrite len_app, len_rep by lia; lia | ].
    rewrite binVal_app_rep0 by lia.
    assert (Hp : 2 ^ len ma = 2 ^ len x * 2 ^ (len ma - len x)).
    { rewrite <- Z.pow_add_r by lia. f_equal. lia. }
    rewrite Hp in Hv.
    assert (0 < 2 ^ len x) by (apply Z.pow_pos_nonneg; lia). nia.
  - apply binVal_unique;
      [ exact Hx | apply allBin_app; [exact Hma | now apply allBin_rep]
      | rewrite len_app, len_rep by lia; lia | ].
    rewrite binVal_app_rep0 by lia.
    assert (Hp : 2 ^ len x = 2 ^ len ma * 2 ^ (len x - len ma)).
    { rewrite <- Z.pow_add_r by lia. f_equal. lia. }
    rewrite Hp in Hv.
    assert (0 < 2 ^ len ma) by (apply Z.pow_pos_nonneg; lia). nia.
Qed.

Lemma stripZeros_allBin (x : str) : allBin x -> allBin (stripZeros x).
Proof.
  induction 1 as [|c r Hc Hr IH]; [constructor|].
  cbn [stripZeros]. destruct (Ascii.eqb c c0); [exact IH | now constructor].
Qed.

Lemma stripZeros_binVal (x : str) : binVal (stripZeros x) = binVal x.
Proof.
  induction x as [|c r IH]; [reflexivity|].
  cbn [stripZeros]. destruct (Ascii.eqb c c0) eqn:E; [|reflexivity].
  apply Ascii.eqb_eq in E. subst c. rewrite IH, binVal_cons.
  change (digitVal c0) with 0. lia.
Qed.

(** A string of binary digits that is not zero: what is left after the
    leading zeros starts with "1", and the index of the first "1" is the
    number of characters dropped. *)
Lemma stripZeros_pos (x : str) :
  allBin x -> 0 < binVal x ->
  exists t, stripZeros x = c1 :: t
    /\ includes1 x = true
    /\ indexOf1 x = len x - len t - 1
    /\ len t < len x.
Proof.
  induction 1 as [|c r Hc Hr IH]; intros Hv.
  - unfold binVal in Hv. simpl in Hv. lia.
  - destruct (binChar_cases c Hc) as [-> | ->].
    + rewrite binVal_cons in Hv. change (digitVal c0) with 0 in Hv.
      destruct (IH ltac:(lia)) as (t & Hs & Hi & Hx & Hl).
      exists t. change (stripZeros (c0 :: r)) with (stripZeros r).
      split; [exact Hs|]. split; [cbn; exact Hi|].
      rewrite len_cons. split; [|lia].
      change (indexOf1 (c0 :: r))
        with (let i := indexOf1 r in if i <? 0 then -1 else i + 1).
      cbv zeta. pose proof (len_nonneg t).
      replace (indexOf1 r <? 0) with false by (symmetry; apply Z.ltb_ge; lia).
      lia.
    + exists r. rewrite len_cons. pose proof (len_nonneg r).
      split; [reflexivity|]. split; [reflexivity|].
      change (indexOf1 (c1 :: r)) with 0. lia.
Qed.

(** The digits of a number that is not negative, as the loop of
    [_toBinaryInt] leaves them. *)
Lemma toBinaryInt_loop_val (fuel : nat) :
  forall (n : Z) (bits : str),
    0 <= n -> n <= Z.of_nat fuel ->
    exists x, toBinaryInt_loop fuel n bits = x ++ bits
              /\ allBin x /\ binVal x = n.
Proof.
  induction fuel as [|k IH]; intros n bits Hn Hf.
  - assert (n = 0) by lia. subst n. exists [c0].
    repeat split. constructor; [reflexivity | constructor].
  - cbn [toBinaryInt_loop].
    assert (Hm : 0 <= n mod 2 < 2) by (apply Z.mod_pos_bound; lia).
    assert (Hdm : n = 2 * (n / 2) + n mod 2) by (apply Z.div_mod; lia).
    assert (Hd : isBinChar (digitChar (n mod 2)) = true)
      by (unfold digitChar; destruct (n mod 2 =? 0); reflexivity).
    assert (Hdv : digitVal (digitChar (n mod 2)) = n mod 2).
    { unfold digitChar. destruct (n mod 2 =? 0) eqn:E.
      - apply Z.eqb_eq in E. now rewrite E.
      - apply Z.eqb_neq in E. change (digitVal c1) with 1. lia. }
    destruct (n / 2 >? 0) eqn:E.
    + assert (Hh : 0 < n / 2) by lia.
      destruct (IH (n / 2) (digitChar (n mod 2) :: bits)) as (x & Hx & Ha & Hv);
        [lia | lia |].
      exists (x ++ [digitChar (n mod 2)]). split; [|split].
      * rewrite Hx, <- app_assoc. reflexivity.
      * apply allBin_app; [exact Ha | constructor; [exact Hd | constructor]].
      * rewrite binVal_app, Hv. change (len [digitChar (n mod 2)]) with 1.
        unfold binVal at 1. cbn [fold_left]. rewrite Hdv. lia.
    + assert (Hz : n / 2 = 0).
      { assert (0 <= n / 2) by (apply Z.div_pos; lia). lia. }
      exists [digitChar (n mod 2)]. split; [reflexivity|].
      split; [constructor; [exact Hd | constructor]|].
      unfold binVal. cbn [fold_left]. rewrite Hdv. lia.
Qed.

Lemma toBinaryInt_val (n : Z) :
  0 <= n -> allBin (_toBinaryInt n) /\ binVal (_toBinaryInt n) = n.
Proof.
  intros Hn. unfold _toBinaryInt. rewrite Z.abs_eq by lia.
  destruct (toBinaryInt_loop_val (Z.to_nat n) n [] Hn ltac:(lia))
    as (x & Hx & Ha & Hv).
  rewrite Hx, app_nil_r. auto.
Qed.

(** A field of [e] binary digits is the text of its value filled with zeros
    on the left, as [toBinary] builds its exponent field. *)
Lemma padded_exponent (ex : str) :
  allBin ex -> 1 <= len ex ->
  let raw := _toBinaryInt (binVal ex) in
  len raw <= len ex
  /\ rep c0 (Z.max 0 (len ex - len raw)) ++ raw = ex.
Proof.
  intros Hx Hl raw.
  pose proof (binVal_bounds ex) as Hb.
  destruct (toBinaryInt_val (binVal ex) ltac:(lia)) as (Ha & Hv). fold raw in Ha, Hv.
  assert (Hlen : len raw <= len ex).
  { destruct (Z.eq_dec (binVal ex) 0) as [E | E].
    - subst raw. rewrite E. change (len (_toBinaryInt 0)) with 1. lia.
    - destruct (toBinaryInt_pos (binVal ex) E) as (l & Hl1 & Hl2).
      fold raw in Hl1. rewrite Hl1, len_cons, Hl2, Z.abs_eq by lia.
      assert (Z.log2 (binVal ex) < len ex) by (apply Z.log2_lt_pow2; lia).
      lia. }
  split; [exact Hlen|].
  pose proof (len_nonneg raw).
  apply binVal_unique;
    [ apply allBin_app; [now apply allBin_rep | exact Ha] | exact Hx
    | rewrite len_app, len_rep by lia; lia
    | rewrite binVal_rep0_app; exact Hv ].
Qed.

(** ** Powers of two and binary fractions *)

Lemma pow2_add (x y : Z) : (pow2 (x + y) == pow2 x * pow2 y)%Q.
Proof. unfold pow2. apply Qpower_plus. discriminate. Qed.

Lemma pow2_pos (k : Z) : (0 < pow2 k)%Q.
Proof. unfold pow2. apply Qpower_0_lt. reflexivity. Qed.

Lemma pow2_cancel (k : Z) : (pow2 k * pow2 (- k) == 1)%Q.
Proof. rewrite <- pow2_add, Z.add_opp_diag_r. reflexivity. Qed.

(** An equation between two dyadic numbers, brought to the integers. *)
Lemma dyadic_eq (u w x y sh : Z) :
  (inject_Z u * pow2 x == inject_Z w * pow2 y)%Q ->
  0 <= sh + x -> 0 <= sh + y ->
  u * 2 ^ (sh + x) = w * 2 ^ (sh + y).
Proof.
  intros H Hx Hy. apply inject_Z_injective.
  rewrite !inject_Z_mult, <- !pow2_nonneg_Z by assumption.
  rewrite !pow2_add.
  setoid_replace (inject_Z u * (pow2 sh * pow2 x))%Q
    with (pow2 sh * (inject_Z u * pow2 x))%Q by ring.
  rewrite H. ring.
Qed.

(** And back. *)
Lemma dyadic_eq_inv (u w x y sh : Z) :
  0 <= sh + x -> 0 <= sh + y ->
  u * 2 ^ (sh + x) = w * 2 ^ (sh + y) ->
  (inject_Z u * pow2 x == inject_Z w * pow2 y)%Q.
Proof.
  intros Hx Hy H.
  apply (Qmult_inj_l _ _ (pow2 sh)).
  { intros E. pose proof (pow2_pos sh) as Hp. rewrite E in Hp.
    discriminate Hp. }
  setoid_replace (pow2 sh * (inject_Z u * pow2 x))%Q
    with (inject_Z u * (pow2 sh * pow2 x))%Q by ring.
  setoid_replace (pow2 sh * (inject_Z w * pow2 y))%Q
    with (inject_Z w * (pow2 sh * pow2 y))%Q by ring.
  rewrite <- !pow2_add, !pow2_nonneg_Z by assumption.
  rewrite <- !inject_Z_mult, H. reflexivity.
Qed.

Lemma binaryFracToDec_loop_val (bits : str) :
  forall (i : Z) (num : Q),
    (binaryFracToDec_loop bits i num
     == num + inject_Z (binVal bits) * pow2 (- (i + len bits)))%Q.
Proof.
  induction bits as [|b r IH]; intros i num.
  - cbn [binaryFracToDec_loop]. unfold binVal. simpl. ring.
  - cbn [binaryFracToDec_loop]. rewrite IH. rewrite binVal_cons, len_cons.
    pose proof (len_nonneg r) as Hr.
    rewrite inject_Z_plus, inject_Z_mult, <- pow2_nonneg_Z by exact Hr.
    replace (- (i + 1 + len r)) with (- (i + 1) + - len r) by lia.
    replace (- (i + (1 + len r))) with (- (i + 1) + - len r) by lia.
    rewrite !pow2_add.
    setoid_replace
      ((inject_Z (digitVal b) * pow2 (len r) + inject_Z (binVal r))
       * (pow2 (- (i + 1)) * pow2 (- len r)))%Q
      with (inject_Z (digitVal b) * pow2 (- (i + 1)) * (pow2 (len r) * pow2 (- len r))
            + inject_Z (binVal r) * (pow2 (- (i + 1)) * pow2 (- len r)))%Q by ring.
    rewrite pow2_cancel. ring.
Qed.

(** The value of a mantissa field. *)
Lemma binaryFracToDec_val (bits : str) :
  (_binaryFracToDec bits == inject_Z (binVal bits) * pow2 (- len bits))%Q.
Proof.
  unfold _binaryFracToDec. rewrite binaryFracToDec_loop_val.
  rewrite Z.add_0_l. ring.
Qed.

(** ** The digits of the decimal part *)

Lemma while_inv {St : Type} (I : St -> Prop) (cond : St -> bool)
  (body : St -> St) :
  (forall st, I st -> cond st = true -> I (body st)) ->
  forall fuel st st',
    I st -> while fuel cond body st = Some st' ->
    I st' /\ cond st' = false.
Proof.
  intros Hstep. induction fuel as [|k IH]; intros st st' Hi Hw.
  - discriminate Hw.
  - cbn [while] in Hw. destruct (cond st) eqn:E.
    + apply (IH (body st)); [now apply Hstep | exact Hw].
    + injection Hw as <-. auto.
Qed.

(** The integer part of a number in [0, 2) is 0 or 1. *)
Lemma truncQ_digit (nn : Q) :
  (0 <= nn)%Q -> (nn < 2)%Q -> 0 <= truncQ nn <= 1.
Proof.
  intros H0 H2. rewrite (truncQ_nonneg nn H0).
  pose proof (Qfloor_resp_le 0 nn H0) as Hlo. change (Qfloor 0) with 0 in Hlo.
  assert (Hhi : (inject_Z (Qfloor nn) < inject_Z 2)%Q).
  { apply Qle_lt_trans with nn; [apply Qfloor_le | exact H2]. }
  rewrite <- Zlt_Qlt in Hhi. lia.
Qed.

Lemma decBody_sem (d : Q) (st : decState) : decSem d st -> decSem d (decBody st).
Proof.
  intros (Hinv & Hall & Hval). split; [now apply decBody_inv|].
  destruct Hinv as (Hi & Hl & H0 & H1).
  assert (Hnn : (0 <= decN st * 2)%Q).
  { apply Qmult_le_0_compat; [exact H0 | discriminate]. }
  assert (Hn2 : (decN st * 2 < 2)%Q).
  { setoid_replace 2%Q with (1 * 2)%Q at 2 by reflexivity.
    apply Qmult_lt_compat_r; [reflexivity | exact H1]. }
  pose proof (truncQ_digit _ Hnn Hn2) as Hd.
  unfold decBody. cbn [iters decN _decBits].
  unfold join in *. rewrite map_app. cbn [map].
  assert (Hdc : isBinChar (digitChar (truncQ (decN st * 2))) = true)
    by (unfold digitChar; destruct (truncQ (decN st * 2) =? 0); reflexivity).
  assert (Hdv : digitVal (digitChar (truncQ (decN st * 2))) = truncQ (decN st * 2)).
  { unfold digitChar. destruct (truncQ (decN st * 2) =? 0) eqn:E.
    - apply Z.eqb_eq in E. now rewrite E.
    - apply Z.eqb_neq in E. change (digitVal c1) with 1. lia. }
  split.
  - apply allBin_app; [exact Hall | constructor; [exact Hdc | constructor]].
  - rewrite binVal_app.
    change (len [digitChar (truncQ (decN st * 2))]) with 1.
    unfold binVal at 2. cbn [fold_left]. rewrite Hdv.
    generalize (truncQ (decN st * 2)) as t. intros t.
    rewrite pow2_add. change (pow2 1) with 2%Q.
    rewrite Hval.
    replace (binVal (map digitChar (_decBits st)) * 2 ^ 1 + (2 * 0 + t))
      with (binVal (map digitChar (_decBits st)) * 2 + t) by lia.
    rewrite inject_Z_plus, inject_Z_mult.
    change (inject_Z 2) with 2%Q. ring.
Qed.

(** The loop on a decimal part that has at most [totalBits + 1] binary digits
    produces these digits, all of them. *)
Lemma decLoop_val (f : Float) (d : Q) (n : Z) :
  0 <= totalBits f -> (0 <= d)%Q -> (d < 1)%Q ->
  (d * pow2 (totalBits f + 1) == inject_Z n)%Q ->
  exists D,
    match decLoop f d with Some st => join (_decBits st) | None => [] end = D
    /\ allBin D
    /\ (d == inject_Z (binVal D) * pow2 (- len D))%Q.
Proof.
  intros Ht H0 H1 Hn.
  destruct (decLoop_run f d Ht H0 H1) as (st & Hw & _ & Hit & Hl & Hend).
  rewrite Hw. exists (join (_decBits st)). split; [reflexivity|].
  assert (Hinit : decSem d (decInit d)).
  { split; [|split].
    - unfold decInv, decInit. cbn. repeat split; try assumption; lia.
    - constructor.
    - cbn [decInit decN iters _decBits join map]. change (pow2 0) with 1%Q.
      change (binVal []) with 0. ring. }
  destruct (while_inv (decSem d) (decCond (totalBits f)) decBody
              (fun st0 Hs _ => decBody_sem d st0 Hs)
              (decFuel f) (decInit d) st Hinit Hw)
    as ((Hinv & Hall & Hval) & _).
  split; [exact Hall|].
  destruct Hinv as (_ & _ & Hd0 & Hd1).
  set (B := binVal (join (_decBits st))) in *.
  assert (Hzero : (decN st == 0)%Q).
  { destruct Hend as [Hz | Hk]; [exact Hz|].
    rewrite Hk, Hn in Hval.
    assert (E : (decN st == inject_Z (n - B))%Q).
    { rewrite Hval. unfold Z.sub. rewrite inject_Z_plus, inject_Z_opp. ring. }
    rewrite E in Hd0, Hd1.
    change 0%Q with (inject_Z 0) in Hd0. change 1%Q with (inject_Z 1) in Hd1.
    rewrite <- Zle_Qle in Hd0. rewrite <- Zlt_Qlt in Hd1.
    rewrite E. assert (n - B = 0) as -> by lia. reflexivity. }
  assert (Hlen : len (join (_decBits st)) = iters st).
  { unfold len, join. rewrite length_map. exact Hl. }
  rewrite Hlen.
  assert (HdB : (d * pow2 (iters st) == inject_Z B)%Q).
  { rewrite Hzero in Hval.
    setoid_replace (d * pow2 (iters st))%Q
      with (d * pow2 (iters st) - inject_Z B + inject_Z B)%Q by ring.
    rewrite <- Hval. ring. }
  rewrite <- HdB.
  setoid_replace (d * pow2 (iters st) * pow2 (- iters st))%Q
    with (d * (pow2 (iters st) * pow2 (- iters st)))%Q by ring.
  rewrite pow2_cancel. ring.
Qed.

(** ** The normalized data and the offset exponent *)

Lemma inject_Z_pos_dyadic (A k : Z) (a : Q) :
  (0 < a)%Q -> (a == inject_Z A * pow2 (- k))%Q -> 0 < A.
Proof.
  intros Ha E.
  assert (H : (a * pow2 k == inject_Z A)%Q).
  { rewrite E.
    setoid_replace (inject_Z A * pow2 (- k) * pow2 k)%Q
      with (inject_Z A * (pow2 k * pow2 (- k)))%Q by ring.
    rewrite pow2_cancel. ring. }
  assert (Hp : (0 < a * pow2 k)%Q).
  { apply Qmult_lt_0_compat; [exact Ha | apply pow2_pos]. }
  rewrite H in Hp. change 0%Q with (inject_Z 0) in Hp.
  now rewrite <- Zlt_Qlt in Hp.
Qed.

(** For a positive number with at most [totalBits + 1] binary digits after
    the point: the normalized data start with "1", they are the binary digits
    of the number, with the point [len decBits] places from the right, and
    the offset exponent is the place of the leading "1". *)
Lemma normalized_data (f : Float) (a : Q) (n : Z) :
  0 <= totalBits f -> (0 < a)%Q ->
  (a * pow2 (totalBits f + 1) == inject_Z n)%Q ->
  let intBits := _toBinaryInt (truncQ a) in
  let decBits :=
    match decLoop f (Qabs (a - inject_Z (truncQ a))) with
    | Some st => join (_decBits st)
    | None => []
    end in
  exists t,
    stripZeros (intBits ++ decBits) = c1 :: t
    /\ allBin t
    /\ offsetExp intBits decBits = len t - len decBits
    /\ (a == inject_Z (binVal (c1 :: t)) * pow2 (- len decBits))%Q.
Proof.
  intros Ht Ha Hn intBits decBits.
  assert (Ha0 : (0 <= a)%Q) by now apply Qlt_le_weak.
  destruct (frac_range a Ha0) as [Hd0 Hd1].
  set (N := truncQ a) in *.
  assert (HN : 0 <= N).
  { subst N. rewrite (truncQ_nonneg a Ha0).
    pose proof (Qfloor_resp_le 0 a Ha0) as H. exact H. }
  assert (Habs : (Qabs (a - inject_Z N) == a - inject_Z N)%Q)
    by now apply Qabs_pos.
  assert (Hn' : (Qabs (a - inject_Z N) * pow2 (totalBits f + 1)
                 == inject_Z (n - N * 2 ^ (totalBits f + 1)))%Q).
  { rewrite Habs. unfold Z.sub. rewrite inject_Z_plus, inject_Z_opp, inject_Z_mult.
    rewrite <- pow2_nonneg_Z by lia. rewrite <- Hn. ring. }
  destruct (decLoop_val f (Qabs (a - inject_Z N))
              (n - N * 2 ^ (totalBits f + 1)) Ht) as (D & HD & HaD & HvD);
    [now rewrite Habs | now rewrite Habs | exact Hn' |].
  fold decBits in HD. rewrite HD. clear HD decBits Hn'.
  rewrite Habs in HvD.
  destruct (toBinaryInt_val N HN) as (Hai & Hvi). fold intBits in Hai, Hvi.
  pose proof (len_nonneg D) as HlD.
  assert (Hval : (a == inject_Z (binVal (intBits ++ D)) * pow2 (- len D))%Q).
  { rewrite binVal_app, Hvi, inject_Z_plus, inject_Z_mult.
    rewrite <- pow2_nonneg_Z by exact HlD.
    setoid_replace ((inject_Z N * pow2 (len D) + inject_Z (binVal D))
                    * pow2 (- len D))%Q
      with (inject_Z N * (pow2 (len D) * pow2 (- len D))
            + inject_Z (binVal D) * pow2 (- len D))%Q by ring.
    rewrite pow2_cancel, <- HvD. ring. }
  pose proof (inject_Z_pos_dyadic _ _ _ Ha Hval) as Hpos.
  assert (HaP : allBin (intBits ++ D)) by now apply allBin_app.
  destruct (stripZeros_pos _ HaP Hpos) as (t & Hs & _ & _ & _).
  exists t. split; [exact Hs|].
  assert (Hat : allBin t).
  { pose proof (stripZeros_allBin _ HaP) as H. rewrite Hs in H.
    now inversion H. }
  split; [exact Hat|]. split.
  - destruct (Z.eq_dec N 0) as [E | E].
    + subst intBits. rewrite E in *. change (_toBinaryInt 0) with [c0] in *.
      change (stripZeros ([c0] ++ D)) with (stripZeros D) in Hs.
      assert (HposD : 0 < binVal D).
      { rewrite binVal_app in Hpos. change (binVal [c0]) with 0 in Hpos. lia. }
      destruct (stripZeros_pos D HaD HposD) as (t' & Hs' & Hin & Hix & _).
      rewrite Hs in Hs'. injection Hs' as <-.
      unfold offsetExp. change (includes1 (stripZeros [c0])) with false.
      cbv iota. rewrite Hin, Hix. lia.
    + destruct (toBinaryInt_pos N E) as (l & Hl & _). fold intBits in Hl.
      rewrite Hl in *. change (stripZeros ((c1 :: l) ++ D)) with (c1 :: l ++ D) in Hs.
      injection Hs as <-. rewrite offsetExp_lead1, len_app. lia.
  - rewrite <- Hs, stripZeros_binVal. exact Hval.
Qed.

(** ** Reading the mantissa off the data *)

Lemma substring_firstn (x : str) (b : Z) :
  0 <= b -> substring x 0 b = firstn (Z.to_nat b) x.
Proof.
  intros Hb. unfold substring, clamp. pose proof (len_nonneg x) as Hx.
  replace (Z.min (Z.min (Z.max 0 0) (len x)) (Z.min (Z.max 0 b) (len x)))
    with 0 by lia.
  replace (Z.max (Z.min (Z.max 0 0) (len x)) (Z.min (Z.max 0 b) (len x)))
    with (Z.min b (len x)) by lia.
  cbn [Z.to_nat skipn]. rewrite Z.sub_0_r.
  destruct (Z.le_gt_cases b (len x)) as [H | H].
  - now rewrite Z.min_l by lia.
  - rewrite Z.min_r by lia. unfold len in *.
    rewrite Nat2Z.id, firstn_all. symmetry. apply firstn_all2. lia.
Qed.

Lemma charAt_zeros_tail (ma : str) (z i : Z) :
  len ma <= i ->
  match charAt (ma ++ rep c0 z) i with Some c => c | None => c0 end = c0.
Proof.
  intros Hi. unfold charAt. pose proof (len_nonneg ma) as Hm.
  replace (i <? 0) with false by (symmetry; apply Z.ltb_ge; lia).
  destruct (nth_error (ma ++ rep c0 z) (Z.to_nat i)) as [c|] eqn:E;
    [|reflexivity].
  rewrite nth_error_app2 in E by (unfold len in *; lia).
  apply nth_error_In in E. unfold rep in E. now apply repeat_spec in E.
Qed.

(** Data [x] and a field [ma] that stand for the same binary fraction. *)
Lemma mant_cut (x ma : str) :
  allBin x -> allBin ma ->
  binVal x * 2 ^ len ma = binVal ma * 2 ^ len x ->
  (len x <= len ma -> x ++ rep c0 (Z.max 0 (len ma - len x)) = ma)
  /\ (len ma <= len x ->
      firstn (Z.to_nat (len ma)) x = ma
      /\ forall i, len ma <= i ->
           match charAt x i with Some c => c | None => c0 end = c0).
Proof.
  intros Hx Hma Hv. destruct (pad_unique x ma Hx Hma Hv) as [H1 H2].
  split; intros Hle.
  - rewrite Z.max_r by lia. now apply H1.
  - specialize (H2 Hle). split.
    + rewrite H2 at 1. unfold len at 1. rewrite Nat2Z.id.
      rewrite firstn_app, firstn_all, Nat.sub_diag. simpl. apply app_nil_r.
    + intros i Hi. rewrite H2. now apply charAt_zeros_tail.
Qed.

Lemma allBin_rev (x : str) : allBin x -> allBin (rev x).
Proof. apply Forall_rev. Qed.

(** The branch [exp > 0] on data that start with the implicit bit and carry
    the fraction of the field [ma]. *)
Lemma normalMant_normal (f : Float) (num : Q) (rounding : bool) (exp : Z)
  (c : ascii) (t ma : str) :
  0 < exp -> Qgtb (Qabs num) (maxAbs f) = false ->
  allBin t -> allBin ma -> len ma = mantBits f ->
  binVal t * 2 ^ len ma = binVal ma * 2 ^ len t ->
  normalMant f num rounding false exp (c :: t) = ma.
Proof.
  intros Hexp Hmax Ht Hma Hlm Hv.
  destruct (mant_cut t ma Ht Hma Hv) as [HA HB].
  pose proof (len_nonneg t) as Hl. pose proof (len_nonneg ma) as Hl2.
  unfold normalMant. rewrite Hmax. cbn [orb].
  replace (exp >? 0) with true by (symmetry; apply Z.gtb_lt; lia).
  rewrite len_cons, <- Hlm.
  destruct (1 + len t <=? len ma) eqn:E.
  - apply Z.leb_le in E.
    rewrite substring_cons by lia. replace (1 - 1) with 0 by lia.
    rewrite substring_firstn by lia.
    rewrite firstn_all2 by (unfold len in *; lia).
    apply HA. lia.
  - apply Z.leb_gt in E. destruct (HB ltac:(lia)) as [Hf Hz].
    rewrite substring_cons by lia. replace (1 - 1) with 0 by lia.
    replace (len ma + 1 - 1) with (len ma) by lia.
    rewrite substring_firstn, Hf by lia.
    assert (Hdata : (if rounding
                     then rev (roundLoop
                                 (digitVal match charAt (c :: t) (len ma + 1) with
                                           | Some c2 => c2
                                           | None => c0
                                           end) 0 (rev ma))
                     else ma) = ma).
    { destruct rounding; [|reflexivity].
      assert (Hc : charAt (c :: t) (len ma + 1) = charAt t (len ma)).
      { unfold charAt.
        replace (len ma + 1 <? 0) with false by (symmetry; apply Z.ltb_ge; lia).
        replace (len ma <? 0) with false by (symmetry; apply Z.ltb_ge; lia).
        replace (Z.to_nat (len ma + 1)) with (S (Z.to_nat (len ma))) by lia.
        reflexivity. }
      rewrite Hc, (Hz (len ma) ltac:(lia)). change (digitVal c0) with 0.
      rewrite roundLoop_sum0 by now apply allBin_rev. apply rev_involutive. }
    rewrite Hdata. rewrite Z.sub_diag. change (rep c0 (Z.max 0 0)) with (@nil ascii).
    apply app_nil_r.
Qed.

(** The branch [exp = 0] on data that carry the fraction of the field [ma]. *)
Lemma normalMant_zero_exp (f : Float) (num : Q) (rounding : bool)
  (nd ma : str) :
  Qgtb (Qabs num) (maxAbs f) = false ->
  allBin nd -> allBin ma -> len ma = mantBits f ->
  binVal nd * 2 ^ len ma = binVal ma * 2 ^ len nd ->
  normalMant f num rounding false 0 nd = ma.
Proof.
  intros Hmax Hn Hma Hlm Hv.
  destruct (mant_cut nd ma Hn Hma Hv) as [HA HB].
  pose proof (len_nonneg nd) as Hl. pose proof (len_nonneg ma) as Hl2.
  unfold normalMant. rewrite Hmax. cbn [orb].
  change (0 >? 0) with false. cbv iota. rewrite <- Hlm.
  destruct (len nd <=? len ma) eqn:E.
  - apply Z.leb_le in E. rewrite substring_firstn by lia.
    rewrite firstn_all2 by (unfold len in *; lia).
    now apply HA.
  - apply Z.leb_gt in E. destruct (HB ltac:(lia)) as [Hf Hz].
    rewrite Z.add_0_r, substring_firstn, Hf by lia.
    rewrite (Hz (len ma + 1) ltac:(lia)). change (digitVal c0) with 0.
    rewrite roundLoop_sum0 by now apply allBin_rev.
    rewrite rev_involutive. destruct rounding;
      rewrite Z.sub_diag; change (rep c0 (Z.max 0 0)) with (@nil ascii);
      apply app_nil_r.
Qed.

(** The branch [exp < 0] on denormalized data that carry the fraction of the
    field [ma]. *)
Lemma subnormal_mant (x ma : str) :
  allBin x -> allBin ma ->
  binVal x * 2 ^ len ma = binVal ma * 2 ^ len x ->
  substring x 0 (len ma) ++ rep c0 (Z.max 0 (len ma - len x)) = ma.
Proof.
  intros Hx Hma Hv. destruct (mant_cut x ma Hx Hma Hv) as [HA HB].
  pose proof (len_nonneg x) as Hl. pose proof (len_nonneg ma) as Hl2.
  rewrite substring_firstn by lia.
  destruct (Z.le_gt_cases (len x) (len ma)) as [H | H].
  - rewrite firstn_all2 by (unfold len in *; lia). now apply HA.
  - destruct (HB ltac:(lia)) as [Hf _]. rewrite Hf.
    rewrite Z.max_l by lia. apply app_nil_r.
Qed.

(** ** Arithmetic of normalized dyadic numbers *)

(** Two numbers with a leading bit at places [T + p] and [m + q]. *)
Lemma leading_bit_unique (A W T m p q : Z) :
  0 <= T -> 0 <= m -> 0 <= p -> 0 <= q ->
  2 ^ T <= A < 2 ^ (T + 1) -> 2 ^ m <= W < 2 ^ (m + 1) ->
  A * 2 ^ p = W * 2 ^ q -> T + p = m + q.
Proof.
  intros HT Hm Hp Hq HA HW E.
  assert (PA : 0 < A) by (assert (0 < 2 ^ T) by (apply Z.pow_pos_nonneg; lia); lia).
  assert (PW : 0 < W) by (assert (0 < 2 ^ m) by (apply Z.pow_pos_nonneg; lia); lia).
  assert (LA : Z.log2 A = T) by (apply Z.log2_unique; [lia|]; rewrite <- Z.add_1_r; lia).
  assert (LW : Z.log2 W = m) by (apply Z.log2_unique; [lia|]; rewrite <- Z.add_1_r; lia).
  pose proof (Z.log2_mul_pow2 A p PA Hp) as H1.
  pose proof (Z.log2_mul_pow2 W q PW Hq) as H2.
  rewrite E in H1. lia.
Qed.

Lemma pow2_mul_cancel (u w x y c : Z) :
  0 <= c -> 0 <= x -> 0 <= y ->
  u * 2 ^ (x + c) = w * 2 ^ (y + c) -> u * 2 ^ x = w * 2 ^ y.
Proof.
  intros Hc Hx Hy E. rewrite !Z.pow_add_r, !Z.mul_assoc in E by lia.
  apply Z.mul_cancel_r in E; [exact E|].
  assert (0 < 2 ^ c) by (apply Z.pow_pos_nonneg; lia). lia.
Qed.

Lemma pow2_le_lt (x y : Z) : 0 <= x -> x < y -> 2 * 2 ^ x <= 2 ^ y.
Proof.
  intros Hx Hy. rewrite <- Z.pow_succ_r by lia. apply Z.pow_le_mono_r; lia.
Qed.

(** ** Encoding a value read off a representation *)

(** The exponent field that [toBinary] builds from the value of a field. *)
Lemma expField_exact (f : Float) (ex : str) :
  allBin ex -> len ex = expBits f -> 1 <= len ex ->
  rep c0 (Z.max 0 (expBits f - len (_toBinaryInt (binVal ex))))
  ++ _toBinaryInt (binVal ex) = ex.
Proof.
  intros Hx Hl H1. rewrite <- Hl. now apply padded_exponent.
Qed.

(** The value of a subnormal representation, positive, is encoded to its
    exponent field and mantissa field. *)
Lemma toBinaryBody_subnormal (e m : Z) (a : Q) (n : Z) (ex ma : str)
  (rounding : bool) :
  1 <= e -> 0 <= m ->
  (0 < a)%Q ->
  (a * pow2 (totalBits (constructor e m) + 1) == inject_Z n)%Q ->
  Qgtb (Qabs a) (maxAbs (constructor e m)) = false ->
  allBin ex -> allBin ma -> len ex = e -> len ma = m ->
  binVal ex = 0 ->
  (a == _binaryFracToDec ma * pow2 (1 - biasZ (constructor e m)))%Q ->
  toBinaryBody (constructor e m) a rounding = ex ++ ma.
Proof.
  intros He Hm Ha Hn Hmax Hex Hma Hle Hlm HR Hav.
  set (f := constructor e m) in *.
  pose proof (biasZ_nonneg e m He) as Hb. fold f in Hb.
  assert (Htb : 0 <= totalBits f) by (change (totalBits f) with (1 + e + m); lia).
  destruct (normalized_data f a n Htb Ha Hn) as (t & Hs & Hat & Hoff & Hval).
  unfold toBinaryBody.
  set (decBits := match decLoop f (Qabs (a - inject_Z (truncQ a))) with
                  | Some st => join (_decBits st)
                  | None => []
                  end) in *.
  rewrite Hs, Hoff.
  set (k := len decBits) in *. set (T := len t) in *.
  assert (Hk : 0 <= k) by apply len_nonneg.
  assert (HT : 0 <= T) by apply len_nonneg.
  set (b := biasZ f) in *.
  (* the equation between the two readings of [a] *)
  rewrite binaryFracToDec_val, Hlm in Hav.
  assert (Hav' : (a == inject_Z (binVal ma) * pow2 (1 - b - m))%Q).
  { rewrite Hav. replace (1 - b - m) with (- m + (1 - b)) by lia.
    rewrite pow2_add. ring. }
  rewrite Hval in Hav'.
  assert (E1 : binVal (c1 :: t) * 2 ^ (m + b) = binVal ma * 2 ^ (k + 1)).
  { replace (m + b) with (k + b + m + - k) by lia.
    replace (k + 1) with (k + b + m + (1 - b - m)) by lia.
    apply dyadic_eq; [exact Hav' | lia | lia]. }
  rewrite binVal_cons in E1. change (digitVal c1) with 1 in E1. fold T in E1.
  pose proof (binVal_bounds t) as BX. fold T in BX.
  pose proof (binVal_bounds ma) as BY. rewrite Hlm in BY.
  set (X := binVal t) in *. set (Y := binVal ma) in *.
  assert (Hex0 : ex = rep c0 e).
  { apply binVal_unique; [exact Hex | now apply allBin_rep
      | rewrite len_rep by lia; exact Hle | now rewrite binVal_zeros ]. }
  (* the leading bit lies below the smallest normal exponent *)
  assert (Hlow : T + b <= k).
  { destruct (Z.le_gt_cases (T + b) k) as [H | H]; [exact H | exfalso].
    assert (H1 : 2 * 2 ^ (k + m) <= 2 ^ (T + (m + b))) by (apply pow2_le_lt; lia).
    assert (H2 : 2 ^ (T + (m + b)) = 2 ^ T * 2 ^ (m + b)) by (apply Z.pow_add_r; lia).
    assert (H3 : 2 ^ (k + 1) = 2 * 2 ^ k) by (rewrite Z.pow_add_r by lia; lia).
    assert (H4 : 2 ^ (k + m) = 2 ^ k * 2 ^ m) by (apply Z.pow_add_r; lia).
    assert (P1 : 0 < 2 ^ (m + b)) by (apply Z.pow_pos_nonneg; lia).
    assert (P2 : 0 < 2 ^ k) by (apply Z.pow_pos_nonneg; lia).
    nia. }
  assert (Hexp : (if T - k - b =? 0 then 0 else T - k + b) = T - k + b).
  { destruct (T - k - b =? 0) eqn:E; [|reflexivity]. apply Z.eqb_eq in E. lia. }
  rewrite Hexp.
  assert (Hcore : (1 * 2 ^ T + X) * 2 ^ m = Y * 2 ^ (k - b + 1)).
  { apply (pow2_mul_cancel _ _ _ _ b); try lia.
    replace (k - b + 1 + b) with (k + 1) by lia. exact E1. }
  destruct (T - k + b <? 0) eqn:Eneg.
  - apply Z.ltb_lt in Eneg. f_equal; [now rewrite Hex0|].
    change (mantBits f) with m. rewrite <- Hlm.
    replace (Z.max 0 (- (T - k - (1 - b)) - 1)) with (k - T - b) by lia.
    apply subnormal_mant;
      [ apply allBin_app; [now apply allBin_rep | constructor; [reflexivity | exact Hat]]
      | exact Hma | ].
    rewrite binVal_rep0_app, binVal_cons, len_app, len_rep, len_cons by lia.
    change (digitVal c1) with 1. fold T X Y. rewrite Hlm.
    replace (k - T - b + (1 + T)) with (k - b + 1) by lia. exact Hcore.
  - apply Z.ltb_ge in Eneg.
    replace (T - k + b) with (binVal ex) by lia.
    rewrite (expField_exact f ex Hex Hle ltac:(lia)).
    change (expBits f) with e. rewrite Hle.
    replace (e >? e) with false by (symmetry; rewrite Z.gtb_ltb; apply Z.ltb_irrefl).
    f_equal. rewrite HR.
    apply normalMant_zero_exp;
      [ exact Hmax | constructor; [reflexivity | exact Hat] | exact Hma
      | exact Hlm | ].
    rewrite binVal_cons, len_cons. change (digitVal c1) with 1.
    fold T X Y. rewrite Hlm.
    replace (1 + T) with (k - b + 1) by lia. exact Hcore.
Qed.

(** The value of a normal representation, positive, whose raw exponent is
    below twice the bias, is encoded to its exponent field and mantissa
    field. *)
Lemma toBinaryBody_normal (e m : Z) (a : Q) (n : Z) (ex ma : str)
  (rounding : bool) :
  1 <= e -> 0 <= m ->
  (0 < a)%Q ->
  (a * pow2 (totalBits (constructor e m) + 1) == inject_Z n)%Q ->
  Qgtb (Qabs a) (maxAbs (constructor e m)) = false ->
  allBin ex -> allBin ma -> len ex = e -> len ma = m ->
  1 <= binVal ex < biasZ (constructor e m) * 2 ->
  (a == (1 + _binaryFracToDec ma)
        * pow2 (binVal ex - biasZ (constructor e m)))%Q ->
  toBinaryBody (constructor e m) a rounding = ex ++ ma.
Proof.
  intros He Hm Ha Hn Hmax Hex Hma Hle Hlm HR Hav.
  set (f := constructor e m) in *.
  pose proof (biasZ_nonneg e m He) as Hb. fold f in Hb.
  assert (Htb : 0 <= totalBits f) by (change (totalBits f) with (1 + e + m); lia).
  destruct (normalized_data f a n Htb Ha Hn) as (t & Hs & Hat & Hoff & Hval).
  unfold toBinaryBody.
  set (decBits := match decLoop f (Qabs (a - inject_Z (truncQ a))) with
                  | Some st => join (_decBits st)
                  | None => []
                  end) in *.
  rewrite Hs, Hoff.
  set (k := len decBits) in *. set (T := len t) in *.
  assert (Hk : 0 <= k) by apply len_nonneg.
  assert (HT : 0 <= T) by apply len_nonneg.
  set (b := biasZ f) in *. set (R := binVal ex) in *.
  rewrite binaryFracToDec_val, Hlm in Hav.
  assert (Hav' : (a == inject_Z (2 ^ m + binVal ma) * pow2 (R - b - m))%Q).
  { rewrite Hav. replace (R - b - m) with (- m + (R - b)) by lia.
    rewrite pow2_add, inject_Z_plus, <- pow2_nonneg_Z by lia.
    setoid_replace ((pow2 m + inject_Z (binVal ma)) * (pow2 (- m) * pow2 (R - b)))%Q
      with ((pow2 m * pow2 (- m) + inject_Z (binVal ma) * pow2 (- m))
            * pow2 (R - b))%Q by ring.
    rewrite pow2_cancel. reflexivity. }
  rewrite Hval in Hav'.
  assert (E2 : binVal (c1 :: t) * 2 ^ (m + b) = (2 ^ m + binVal ma) * 2 ^ (k + R)).
  { replace (m + b) with (k + b + m + - k) by lia.
    replace (k + R) with (k + b + m + (R - b - m)) by lia.
    apply dyadic_eq; [exact Hav' | lia | lia]. }
  rewrite binVal_cons in E2. change (digitVal c1) with 1 in E2. fold T in E2.
  pose proof (binVal_bounds t) as BX. fold T in BX.
  pose proof (binVal_bounds ma) as BY. rewrite Hlm in BY.
  set (X := binVal t) in *. set (Y := binVal ma) in *.
  assert (PT : 2 ^ (T + 1) = 2 * 2 ^ T) by (rewrite Z.pow_add_r by lia; lia).
  assert (Pm : 2 ^ (m + 1) = 2 * 2 ^ m) by (rewrite Z.pow_add_r by lia; lia).
  assert (Hlead : T + (m + b) = m + (k + R)).
  { apply (leading_bit_unique (1 * 2 ^ T + X) (2 ^ m + Y)); first [lia | exact E2]. }
  assert (Hexp : (if T - k - b =? 0 then 0 else T - k + b) = R).
  { destruct (T - k - b =? 0) eqn:E; [apply Z.eqb_eq in E; lia | lia]. }
  rewrite Hexp.
  replace (R <? 0) with false by (symmetry; apply Z.ltb_ge; lia).
  unfold R.
  rewrite (expField_exact f ex Hex Hle ltac:(lia)).
  change (expBits f) with e. rewrite Hle.
  replace (e >? e) with false by (symmetry; rewrite Z.gtb_ltb; apply Z.ltb_irrefl).
  fold R. f_equal.
  apply normalMant_normal; [lia | exact Hmax | exact Hat | exact Hma | exact Hlm |].
  fold X Y T. rewrite Hlm.
  assert (E3 : (1 * 2 ^ T + X) * 2 ^ m = (2 ^ m + Y) * 2 ^ T).
  { apply (pow2_mul_cancel _ _ _ _ b); [lia | lia | lia |].
    replace (T + b) with (k + R) by lia. exact E2. }
  lia.
Qed.

(** ** The round trip *)

Lemma split_fields (bits : str) (e m : Z) :
  0 <= e -> 0 <= m -> len bits = 1 + e + m ->
  exists sg ex ma, bits = sg :: ex ++ ma /\ len ex = e /\ len ma = m.
Proof.
  intros He Hm Hl. destruct bits as [|sg rest].
  - change (len []) with 0 in Hl. lia.
  - rewrite len_cons in Hl.
    exists sg, (firstn (Z.to_nat e) rest), (skipn (Z.to_nat e) rest).
    split; [now rewrite firstn_skipn|].
    unfold len in *. rewrite length_firstn, length_skipn. lia.
Qed.

Lemma binaryFracToDec_nonneg (ma : str) : (0 <= _binaryFracToDec ma)%Q.
Proof.
  rewrite binaryFracToDec_val. apply Qmult_le_0_compat.
  - change 0%Q with (inject_Z 0). rewrite <- Zle_Qle. apply binVal_bounds.
  - apply Qlt_le_weak, pow2_pos.
Qed.

(** The magnitude a finite representation stands for. *)
Lemma magnitude_nonneg (ma : str) (R b : Z) :
  (0 <= (if R =? 0 then _binaryFracToDec ma * pow2 (1 - b)
         else (1 + _binaryFracToDec ma) * pow2 (R - b)))%Q.
Proof.
  pose proof (binaryFracToDec_nonneg ma) as H.
  destruct (R =? 0); apply Qmult_le_0_compat;
    try (apply Qlt_le_weak, pow2_pos); [exact H|].
  rewrite <- (Qplus_0_r 0). apply Qplus_le_compat; [discriminate | exact H].
Qed.

(** Encoding the magnitude of a finite representation gives its exponent
    field and its mantissa field. *)
Lemma toBinaryBody_magnitude (e m : Z) (a : Q) (n : Z) (ex ma : str)
  (rounding : bool) :
  1 <= e -> 0 <= m ->
  (0 < a)%Q ->
  (a * pow2 (totalBits (constructor e m) + 1) == inject_Z n)%Q ->
  (Qabs a <= maxAbs (constructor e m))%Q ->
  allBin ex -> allBin ma -> len ex = e -> len ma = m ->
  binVal ex <= biasZ (constructor e m) * 2 ->
  binVal ex <> biasZ (constructor e m) * 2 \/ biasZ (constructor e m) = 0 ->
  (a == (if binVal ex =? 0
         then _binaryFracToDec ma * pow2 (1 - biasZ (constructor e m))
         else (1 + _binaryFracToDec ma)
              * pow2 (binVal ex - biasZ (constructor e m))))%Q ->
  toBinaryBody (constructor e m) a rounding = ex ++ ma.
Proof.
  intros He Hm Ha Hn Hmax Hex Hma Hle Hlm HR Hq Hav.
  assert (Hmax' : Qgtb (Qabs a) (maxAbs (constructor e m)) = false).
  { unfold Qgtb. apply negb_false_iff, Qle_bool_iff. exact Hmax. }
  pose proof (binVal_bounds ex) as BR.
  destruct (binVal ex =? 0) eqn:E.
  - apply Z.eqb_eq in E.
    now apply (toBinaryBody_subnormal e m a n ex ma rounding).
  - apply Z.eqb_neq in E.
    apply (toBinaryBody_normal e m a n ex ma rounding); try assumption. lia.
Qed.

Lemma Fin_inj (x y : Q) : Fin x = Fin y -> x = y.
Proof. intros H. now injection H. Qed.




(** * Further properties *)

(** ** _toBinaryInt and _binaryFracToDec *)

(** X1: the text [_toBinaryInt] returns is made of binary digits, and read
    back with [parseInt(_, 2)] it is the magnitude of the argument. *)
Theorem toBinaryInt_parseInt (z : Z) :
  allBin (_toBinaryInt z) /\ parseInt2 (_toBinaryInt z) = Some (Z.abs z).
Proof.
  assert (E : _toBinaryInt z = _toBinaryInt (Z.abs z)).
  { unfold _toBinaryInt. now rewrite Z.abs_idemp. }
  destruct (toBinaryInt_val (Z.abs z) (Z.abs_nonneg z)) as (Ha & Hv).
  rewrite <- E in Ha, Hv. split; [exact Ha|].
  destruct (_toBinaryInt z) as [|c r] eqn:Er.
  - exfalso. change (binVal []) with 0 in Hv.
    assert (z = 0) by lia. subst z. discriminate Er.
  - cbn [parseInt2]. now rewrite Hv.
Qed.

(** X2: the text has [log2 |z| + 1] digits (one digit, "0", for zero), and
    for an argument other than zero it starts with "1": there is never a
    leading zero. *)
Theorem toBinaryInt_digits (z : Z) :
  len (_toBinaryInt z) = Z.log2 (Z.abs z) + 1
  /\ (z <> 0 -> exists l, _toBinaryInt z = c1 :: l).
Proof.
  split.
  - destruct (Z.eq_dec z 0) as [-> | Hz]; [reflexivity|].
    destruct (toBinaryInt_pos z Hz) as (l & Hl & Hlen).
    rewrite Hl, len_cons, Hlen. lia.
  - intros Hz. destruct (toBinaryInt_pos z Hz) as (l & Hl & _). now exists l.
Qed.

Lemma toBinaryInt_digits_witness :
  len (_toBinaryInt 6) = 3 /\ exists l, _toBinaryInt 6 = c1 :: l.
Proof.
  destruct (toBinaryInt_digits 6) as [H1 H2].
  split; [exact H1 | apply H2; discriminate].
Defined.



(** ** toDecimal on well-formed strings *)

Lemma all_ones_iff (ex : str) :
  allBin ex -> (binVal ex = 2 ^ len ex - 1 <-> ex = rep c1 (len ex)).
Proof.
  intros Hx. pose proof (len_nonneg ex) as Hl. split; intros H.
  - apply binVal_unique;
      [ exact Hx | now apply allBin_rep | now rewrite len_rep
      | now rewrite binVal_ones ].
  - rewrite H at 1. now apply binVal_ones.
Qed.

(** The two ways out of [toDecimal] on a well-formed string: the finite
    branches when the exponent field is not all ones, the special branch
    when it is. *)
Lemma toDecimal_cases (e m : Z) (sg : ascii) (ex ma : str) :
  1 <= e -> 0 <= m -> len ex = e -> len ma = m ->
  isBinChar sg = true -> allBin ex -> allBin ma ->
  let f := constructor e m in
  let R := binVal ex in
  let b := biasZ f in
  let sign := if digitVal sg =? 0 then 1 else -1 in
  (R <= b * 2 /\ ex <> rep c1 e
   /\ toDecimal f (sg :: ex ++ ma)
      = Fin (if R =? 0
             then inject_Z sign * _binaryFracToDec ma * pow2 (1 - b)
             else inject_Z sign * (1 + _binaryFracToDec ma) * pow2 (R - b))%Q)
  \/ (ex = rep c1 e
      /\ toDecimal f (sg :: ex ++ ma)
         = if match parseInt2 ma with Some 0 => true | _ => false end
           then signedInfinity sign else NaN).
Proof.
  intros He Hm Hle Hlm Hsg Hex Hma f R b sign.
  pose proof (double_bias e m He) as Hd. fold f in Hd. fold b in Hd.
  pose proof (binVal_bounds ex) as HB. rewrite Hle in HB. fold R in HB.
  pose proof (all_ones_iff ex Hex) as Hones. rewrite Hle in Hones. fold R in Hones.
  rewrite (toDecimal_concat f sg ex ma eq_refl Hle Hlm Hsg Hex Hma).
  cbv zeta.
  assert (Hp : parseInt2 ex = Some R).
  { destruct ex; [change (len []) with 0 in Hle; lia | reflexivity]. }
  rewrite Hp. fold b sign.
  destruct (R >? b * 2) eqn:E.
  - right. assert (HR : R = 2 ^ e - 1) by lia.
    split; [now apply Hones|].
    replace (R =? b * 2 + 1) with true by (symmetry; apply Z.eqb_eq; lia).
    reflexivity.
  - left. split; [lia|]. split.
    + intros Hall. apply Hones in Hall. lia.
    + destruct (R =? 0); reflexivity.
Qed.



(** X5: flipping the sign bit of a well-formed string negates what it decodes
    to (NaN stays NaN). *)
Theorem toDecimal_sign_flip (e m : Z) (rest : str) :
  1 <= e -> 0 <= m ->
  let f := constructor e m in
  len rest = e + m -> allBin rest ->
  sameNumber (toDecimal f (c1 :: rest)) (negate (toDecimal f (c0 :: rest))).
Proof.
  intros He Hm f Hlen Hall.
  assert (Hl : len (c0 :: rest) = 1 + e + m) by (rewrite len_cons; lia).
  destruct (split_fields (c0 :: rest) e m ltac:(lia) Hm Hl)
    as (sg & ex & ma & Heq & Hle & Hlm).
  injection Heq as <- ->.
  apply Forall_app in Hall. destruct Hall as [Hex Hma].
  destruct (toDecimal_cases e m c0 ex ma He Hm Hle Hlm eq_refl Hex Hma)
    as [(_ & Hne & Hd0) | (Hones & Hd0)];
  destruct (toDecimal_cases e m c1 ex ma He Hm Hle Hlm eq_refl Hex Hma)
    as [(_ & Hne' & Hd1) | (Hones' & Hd1)];
  try contradiction; fold f in Hd0, Hd1; rewrite Hd0, Hd1.
  - change (digitVal c0 =? 0) with true. change (digitVal c1 =? 0) with false.
    cbv iota. destruct (binVal ex =? 0); cbn [negate sameNumber]; ring.
  - destruct (match parseInt2 ma with Some 0 => true | _ => false end);
      exact I.
Qed.

Lemma toDecimal_sign_flip_witness :
  sameNumber (toDecimal (constructor 4 3) (s "11000001"))
             (negate (toDecimal (constructor 4 3) (s "01000001"))).
Proof.
  apply (toDecimal_sign_flip 4 3 (s "1000001")).
  - lia.
  - lia.
  - reflexivity.
  - repeat constructor.
Defined.

(** A finite result, with its significand as an integer. *)
Lemma toDecimal_value_fields (e m : Z) (sg : ascii) (ex ma : str) (q : Q) :
  1 <= e -> 0 <= m -> len ex = e -> len ma = m ->
  isBinChar sg = true -> allBin ex -> allBin ma ->
  let f := constructor e m in
  let R := binVal ex in
  toDecimal f (sg :: ex ++ ma) = Fin q ->
  R <= biasZ f * 2
  /\ (q == inject_Z (if digitVal sg =? 0 then 1 else -1)
          * inject_Z ((if R =? 0 then 0 else 2 ^ m) + binVal ma)
          * pow2 (Z.max R 1 - biasZ f - m))%Q.
Proof.
  intros He Hm Hle Hlm Hsg Hex Hma f R Hq.
  pose proof (binVal_bounds ex) as HB. fold R in HB.
  destruct (toDecimal_cases e m sg ex ma He Hm Hle Hlm Hsg Hex Hma)
    as [(HR & _ & Hd) | (_ & Hd)]; fold f in Hd; rewrite Hd in Hq.
  - fold R in HR, Hq. split; [exact HR|].
    apply Fin_inj in Hq. rewrite <- Hq.
    set (sign := if digitVal sg =? 0 then 1 else -1).
    set (b := biasZ f).
    destruct (R =? 0) eqn:E.
    + apply Z.eqb_eq in E. rewrite E. change (Z.max 0 1) with 1.
      rewrite binaryFracToDec_val, Hlm. cbn [Z.add].
      replace (1 - b - m) with (- m + (1 - b)) by lia.
      rewrite pow2_add. ring.
    + apply Z.eqb_neq in E. rewrite Z.max_l by lia.
      rewrite binaryFracToDec_val, Hlm.
      rewrite inject_Z_plus, <- pow2_nonneg_Z by lia.
      replace (R - b - m) with (- m + (R - b)) by lia.
      rewrite pow2_add.
      setoid_replace (inject_Z sign * (pow2 m + inject_Z (binVal ma))
                      * (pow2 (- m) * pow2 (R - b)))%Q
        with (inject_Z sign
              * (pow2 m * pow2 (- m) + inject_Z (binVal ma) * pow2 (- m))
              * pow2 (R - b))%Q by ring.
      rewrite pow2_cancel. reflexivity.
  - exfalso.
    destruct (match parseInt2 ma with Some 0 => true | _ => false end);
      [unfold signedInfinity in Hq;
       destruct ((if digitVal sg =? 0 then 1 else -1) <? 0)|];
      discriminate Hq.
Qed.



Lemma pow2_le_mono (x y : Z) : x <= y -> (pow2 x <= pow2 y)%Q.
Proof. intros H. unfold pow2. apply Qpower_le_compat_l; [exact H | discriminate]. Qed.

Lemma sign_cases (sg : ascii) :
  isBinChar sg = true ->
  (sg = c0 /\ (if digitVal sg =? 0 then 1 else -1) = 1)
  \/ (sg = c1 /\ (if digitVal sg =? 0 then 1 else -1) = -1).
Proof.
  intros H. destruct (binChar_cases sg H) as [-> | ->]; [left | right]; auto.
Qed.



(** Two finite representations of one magnitude that is not zero have the
    same exponent field and the same mantissa field. *)
Lemma fields_unique (m : Z) (ex1 ma1 ex2 ma2 : str) :
  0 <= m ->
  allBin ex1 -> allBin ex2 -> allBin ma1 -> allBin ma2 ->
  len ex1 = len ex2 -> len ma1 = m -> len ma2 = m ->
  let W1 := (if binVal ex1 =? 0 then 0 else 2 ^ m) + binVal ma1 in
  let W2 := (if binVal ex2 =? 0 then 0 else 2 ^ m) + binVal ma2 in
  0 < W1 ->
  W1 * 2 ^ Z.max (binVal ex1) 1 = W2 * 2 ^ Z.max (binVal ex2) 1 ->
  ex1 = ex2 /\ ma1 = ma2.
Proof.
  intros Hm Hx1 Hx2 Ha1 Ha2 Hle Hl1 Hl2 W1 W2 Hpos E.
  pose proof (binVal_bounds ex1) as B1. pose proof (binVal_bounds ex2) as B2.
  pose proof (binVal_bounds ma1) as M1. pose proof (binVal_bounds ma2) as M2.
  rewrite Hl1 in M1. rewrite Hl2 in M2.
  set (R1 := binVal ex1) in *. set (R2 := binVal ex2) in *.
  assert (Pm : 0 < 2 ^ m) by (apply Z.pow_pos_nonneg; lia).
  assert (Pm1 : 2 ^ (m + 1) = 2 * 2 ^ m) by (rewrite Z.pow_add_r by lia; lia).
  assert (Hfin : R1 = R2 /\ binVal ma1 = binVal ma2).
  { subst W1 W2.
    destruct (R1 =? 0) eqn:E1; destruct (R2 =? 0) eqn:E2;
      [apply Z.eqb_eq in E1 | apply Z.eqb_eq in E1 | apply Z.eqb_neq in E1
       | apply Z.eqb_neq in E1];
      [apply Z.eqb_eq in E2 | apply Z.eqb_neq in E2 | apply Z.eqb_eq in E2
       | apply Z.eqb_neq in E2].
    - rewrite E1, E2 in *. change (Z.max 0 1) with 1 in E. lia.
    - exfalso. rewrite E1 in E. change (Z.max 0 1) with 1 in E.
      rewrite (Z.max_l R2 1) in E by lia.
      assert (2 * 2 ^ 0 <= 2 ^ R2) by (apply pow2_le_lt; lia).
      change (2 ^ 0) with 1 in *. nia.
    - exfalso. rewrite E2 in E. change (Z.max 0 1) with 1 in E.
      rewrite (Z.max_l R1 1) in E by lia.
      assert (2 * 2 ^ 0 <= 2 ^ R1) by (apply pow2_le_lt; lia).
      change (2 ^ 0) with 1 in *. nia.
    - rewrite (Z.max_l R1 1), (Z.max_l R2 1) in E by lia.
      assert (HR : m + R1 = m + R2).
      { apply (leading_bit_unique (2 ^ m + binVal ma1) (2 ^ m + binVal ma2));
          first [lia | exact E]. }
      assert (R1 = R2) by lia. split; [assumption|].
      replace R2 with R1 in E by assumption.
      apply Z.mul_cancel_r in E; [lia|].
      assert (0 < 2 ^ R1) by (apply Z.pow_pos_nonneg; lia). lia. }
  destruct Hfin as [HR HM]. split.
  - now apply binVal_unique.
  - apply binVal_unique; try assumption. lia.
Qed.





(** ** The shape of what toBinary returns *)

Lemma len_substring (x : str) (a b : Z) :
  len (substring x a b) = Z.abs (clamp x b - clamp x a).
Proof.
  unfold substring. pose proof (len_nonneg x) as Hx.
  assert (Ha : 0 <= clamp x a <= len x) by (unfold clamp; lia).
  assert (Hb : 0 <= clamp x b <= len x) by (unfold clamp; lia).
  unfold len in *. rewrite length_firstn, length_skipn. lia.
Qed.

Lemma roundLoop_length (sum : Z) (data : str) :
  forall carry, length (roundLoop sum carry data) = length data.
Proof.
  induction data as [|c r IH]; intros carry; [reflexivity|].
  cbn [roundLoop].
  destruct (digitVal c + sum) as [|[[p|p|]|[p|p|]|]|p]; cbn [length];
    rewrite ?IH; reflexivity.
Qed.

Lemma normalMant_length (f : Float) (num : Q) (rounding inf : bool) (exp : Z)
  (nd : str) :
  0 <= mantBits f ->
  len (normalMant f num rounding inf exp nd) = mantBits f.
Proof.
  intros Hm. unfold normalMant. cbv zeta. pose proof (len_nonneg nd) as Hn.
  destruct (inf || Qgtb (Qabs num) (maxAbs f)); [now apply len_rep|].
  set (g := if exp >? 0 then 1 else 0).
  assert (Hg : 0 <= g <= 1) by (subst g; destruct (exp >? 0); lia).
  destruct (len nd <=? mantBits f) eqn:E.
  - apply Z.leb_le in E.
    assert (Hd : len (substring nd g (mantBits f)) <= mantBits f).
    { rewrite len_substring. unfold clamp. lia. }
    pose proof (len_nonneg (substring nd g (mantBits f))).
    rewrite len_app, len_rep by lia. lia.
  - apply Z.leb_gt in E.
    assert (Hd : len (substring nd g (mantBits f + g)) = mantBits f).
    { rewrite len_substring. unfold clamp. lia. }
    set (data := if rounding then _ else _).
    assert (Hr : len data = mantBits f).
    { subst data. destruct rounding; [|exact Hd].
      unfold len in *. now rewrite length_rev, roundLoop_length, length_rev. }
    rewrite len_app, Hr, len_rep by lia. lia.
Qed.

(** X10: whatever the number and the rounding setting, [toBinary] returns a
    string of exactly [totalBits] characters. *)
Theorem toBinary_length (e m : Z) (v : Q) (rounding : bool) :
  0 <= e -> 0 <= m ->
  len (toBinary (constructor e m) v rounding) = totalBits (constructor e m).
Proof.
  intros He Hm. set (f := constructor e m).
  change (totalBits f) with (1 + e + m).
  unfold toBinary. rewrite len_cons.
  enough (H : len (toBinaryBody f v rounding) = e + m) by lia.
  unfold toBinaryBody. cbv zeta.
  set (intBits := _toBinaryInt (truncQ v)).
  set (decBits := match decLoop f (Qabs (v - inject_Z (truncQ v))) with
                  | Some st => join (_decBits st)
                  | None => []
                  end).
  set (_exp := offsetExp intBits decBits).
  set (exp := if _exp - biasZ f =? 0 then 0 else _exp + biasZ f).
  set (nd := stripZeros (intBits ++ decBits)).
  destruct (exp <? 0).
  - set (den := rep c0 (Z.max 0 (- (_exp - (1 - biasZ f)) - 1)) ++ nd).
    pose proof (len_nonneg den) as Hd.
    rewrite !len_app, len_rep, len_rep, len_substring by (simpl; lia).
    unfold clamp. change (expBits f) with e. change (mantBits f) with m. lia.
  - rewrite len_app, normalMant_length by (simpl; lia).
    change (mantBits f) with m. change (expBits f) with e.
    pose proof (expBits_len e exp He) as Hx. cbv zeta in Hx. lia.
Qed.

Lemma toBinary_length_witness :
  len (toBinary (constructor 4 3) (1 # 3) true) = 8.
Proof. apply (toBinary_length 4 3 (1 # 3) true); lia. Defined.

Lemma allBin_firstn (n : nat) (x : str) : allBin x -> allBin (firstn n x).
Proof.
  intros H. revert n. induction H as [|c r Hc _ IH]; intros [|n]; cbn [firstn].
  - constructor.
  - constructor.
  - constructor.
  - constructor; [exact Hc | apply IH].
Qed.

Lemma allBin_skipn (n : nat) (x : str) : allBin x -> allBin (skipn n x).
Proof.
  intros H. revert n. induction H as [|c r Hc Hr IH]; intros [|n]; cbn [skipn].
  - constructor.
  - constructor.
  - constructor; assumption.
  - apply IH.
Qed.

Lemma allBin_substring (x : str) (a b : Z) : allBin x -> allBin (substring x a b).
Proof. intros H. unfold substring. now apply allBin_firstn, allBin_skipn. Qed.

Lemma allBin_join (ds : list Z) : allBin (join ds).
Proof.
  unfold join. induction ds as [|d r IH]; constructor; [|exact IH].
  unfold digitChar. destruct (d =? 0); reflexivity.
Qed.

Lemma allBin_roundLoop (sum : Z) (data : str) :
  allBin data -> forall carry, allBin (roundLoop sum carry data).
Proof.
  induction 1 as [|c r Hc Hr IH]; intros carry; [constructor|].
  assert (Hdc : isBinChar (digitChar carry) = true)
    by (unfold digitChar; destruct (carry =? 0); reflexivity).
  cbn [roundLoop].
  destruct (digitVal c + sum) as [|[[p|p|]|[p|p|]|]|p];
    try (constructor; [exact Hc | apply IH]).
  - constructor; [exact Hdc | exact Hr].
  - constructor; [destruct (carry =? 0); [exact Hc | reflexivity] | apply IH].
  - constructor; [destruct (carry =? 0); reflexivity | exact Hr].
Qed.

Lemma toBinaryInt_allBin (z : Z) : allBin (_toBinaryInt z).
Proof.
  assert (E : _toBinaryInt z = _toBinaryInt (Z.abs z)).
  { unfold _toBinaryInt. now rewrite Z.abs_idemp. }
  rewrite E. apply toBinaryInt_val, Z.abs_nonneg.
Qed.

Lemma normalMant_allBin (f : Float) (num : Q) (rounding inf : bool) (exp : Z)
  (nd : str) :
  allBin nd -> allBin (normalMant f num rounding inf exp nd).
Proof.
  intros Hn. unfold normalMant. cbv zeta.
  destruct (inf || Qgtb (Qabs num) (maxAbs f)); [now apply allBin_rep|].
  destruct (len nd <=? mantBits f).
  - apply allBin_app; [now apply allBin_substring | now apply allBin_rep].
  - apply allBin_app; [|now apply allBin_rep].
    destruct rounding; [|now apply allBin_substring].
    apply allBin_rev, allBin_roundLoop, allBin_rev. now apply allBin_substring.
Qed.



Lemma exists_last_or_nil (x : str) : x = [] \/ exists p c, x = p ++ [c].
Proof.
  destruct x as [|a r]; [now left | right].
  destruct (exists_last (l := a :: r)) as (p & c & E); [discriminate|].
  now exists p, c.
Qed.

(** With rounding, the mantissa of the branch [exp >= 0] is the one without
    rounding, or differs from it in its last bit, "0" turned into "1". *)
Lemma normalMant_rounding (f : Float) (num : Q) (inf : bool) (exp : Z)
  (nd : str) :
  0 <= mantBits f -> allBin nd ->
  normalMant f num true inf exp nd = normalMant f num false inf exp nd
  \/ exists p,
       normalMant f num false inf exp nd = p ++ [c0]
       /\ normalMant f num true inf exp nd = p ++ [c1].
Proof.
  intros Hm Hn. unfold normalMant. cbv zeta.
  destruct (inf || Qgtb (Qabs num) (maxAbs f)); [now left|].
  destruct (len nd <=? mantBits f) eqn:E; [now left|].
  apply Z.leb_gt in E.
  set (g := if exp >? 0 then 1 else 0).
  assert (Hg : 0 <= g <= 1) by (subst g; destruct (exp >? 0); lia).
  set (data := substring nd g (mantBits f + g)).
  assert (Hd : len data = mantBits f).
  { subst data. rewrite len_substring. unfold clamp. lia. }
  assert (Ha : allBin data) by now apply allBin_substring.
  set (lsb := match charAt nd (mantBits f + 1) with Some c => c | None => c0 end).
  assert (Hlr : len (rev (roundLoop (digitVal lsb) 0 (rev data))) = mantBits f).
  { unfold len in *. now rewrite length_rev, roundLoop_length, length_rev. }
  rewrite Hlr, Hd, Z.sub_diag. change (rep c0 (Z.max 0 0)) with (@nil ascii).
  rewrite !app_nil_r.
  destruct (exists_last_or_nil data) as [-> | (p & c & ->)]; [now left|].
  rewrite rev_app_distr. cbn [rev app].
  apply Forall_app in Ha. destruct Ha as [Hp Hc].
  apply Forall_cons_iff in Hc. destruct Hc as [Hc _].
  assert (Hrp : allBin (rev p)) by now apply allBin_rev.
  pose proof (digitVal_range lsb) as Hs.
  destruct (Z.eq_dec (digitVal lsb) 0) as [E0 | E0].
  - left. rewrite E0, roundLoop_sum0 by (constructor; assumption).
    cbn [rev]. now rewrite rev_involutive.
  - assert (E1 : digitVal lsb = 1) by lia.
    rewrite E1, roundLoop_sum1 by assumption.
    cbn [rev]. rewrite rev_involutive.
    destruct (binChar_cases c Hc) as [-> | ->]; [right; now exists p | now left].
Qed.

(** X12: rounding never carries.  The string returned with rounding is the
    one returned without, or differs from it in the last bit only, "0" turned
    into "1". *)
Theorem toBinary_rounding_last_bit (f : Float) (v : Q) :
  0 <= expBits f -> 0 <= mantBits f ->
  toBinary f v true = toBinary f v false
  \/ exists p,
       toBinary f v false = p ++ [c0] /\ toBinary f v true = p ++ [c1].
Proof.
  intros _ Hm. unfold toBinary, toBinaryBody. cbv zeta.
  set (intBits := _toBinaryInt (truncQ v)).
  set (decBits := match decLoop f (Qabs (v - inject_Z (truncQ v))) with
                  | Some st => join (_decBits st)
                  | None => []
                  end).
  assert (Hn : allBin (stripZeros (intBits ++ decBits))).
  { apply stripZeros_allBin, allBin_app; [apply toBinaryInt_allBin|].
    subst decBits. destruct (decLoop f _); [apply allBin_join | constructor]. }
  match goal with |- context [if ?c then _ else _] => destruct c end;
    [now left|].
  set (exp := if offsetExp intBits decBits - biasZ f =? 0 then 0
              else offsetExp intBits decBits + biasZ f).
  set (inf := len (rep c0 (Z.max 0 (expBits f - len (_toBinaryInt exp)))
                   ++ _toBinaryInt exp) >? expBits f).
  set (ex := if inf then rep c1 (expBits f) else _).
  destruct (normalMant_rounding f v inf exp _ Hm Hn) as [E | (p & E0 & E1)].
  - left. now rewrite E.
  - right. exists (signBit v :: ex ++ p). rewrite E0, E1.
    split; cbn [app]; now rewrite app_assoc.
Qed.

Lemma toBinary_rounding_last_bit_witness :
  toBinary (constructor 4 3) (21 # 16) true
  = toBinary (constructor 4 3) (21 # 16) false
  \/ exists p,
       toBinary (constructor 4 3) (21 # 16) false = p ++ [c0]
       /\ toBinary (constructor 4 3) (21 # 16) true = p ++ [c1].
Proof. apply (toBinary_rounding_last_bit (constructor 4 3) (21 # 16)); simpl; lia. Defined.

(** ** The digits of the decimal part and the offset exponent *)





(** X15: for a positive number with at most [totalBits + 1] binary digits
    after the point, the offset exponent that [toBinary] computes is the
    place of the leading bit: [2^_exp <= a < 2^(_exp + 1)]. *)
Theorem offsetExp_log2 (f : Float) (a : Q) (n : Z) :
  0 <= totalBits f -> (0 < a)%Q ->
  (a * pow2 (totalBits f + 1) == inject_Z n)%Q ->
  let intBits := _toBinaryInt (truncQ a) in
  let decBits :=
    match decLoop f (Qabs (a - inject_Z (truncQ a))) with
    | Some st => join (_decBits st)
    | None => []
    end in
  (pow2 (offsetExp intBits decBits) <= a)%Q
  /\ (a < pow2 (offsetExp intBits decBits + 1))%Q.
Proof.
  intros Ht Ha Hn intBits decBits.
  destruct (normalized_data f a n Ht Ha Hn) as (t & _ & _ & Hoff & Hval).
  fold intBits decBits in Hoff, Hval. rewrite Hoff, Hval.
  rewrite binVal_cons. change (digitVal c1) with 1.
  pose proof (binVal_bounds t) as BX. pose proof (len_nonneg t) as HT.
  set (T := len t) in *. set (k := len decBits) in *. set (X := binVal t) in *.
  split.
  - replace (T - k) with (T + - k) by lia. rewrite pow2_add.
    apply Qmult_le_compat_r; [|apply Qlt_le_weak, pow2_pos].
    rewrite pow2_nonneg_Z by exact HT. rewrite <- Zle_Qle. lia.
  - replace (T - k + 1) with (T + 1 + - k) by lia. rewrite pow2_add.
    apply Qmult_lt_compat_r; [apply pow2_pos|].
    rewrite pow2_nonneg_Z by lia. rewrite <- Zlt_Qlt.
    rewrite Z.pow_add_r by lia. lia.
Qed.

Lemma offsetExp_log2_witness :
  (pow2 1 <= 9 # 4)%Q /\ (9 # 4 < pow2 2)%Q.
Proof.
  apply (offsetExp_log2 (constructor 4 3) (9 # 4) 1152).
  - vm_compute. discriminate.
  - reflexivity.
  - reflexivity.
Defined.

Lemma toBinaryInt_digits_le (n e : Z) :
  0 <= n < 2 ^ e -> 1 <= e -> len (_toBinaryInt n) <= e.
Proof.
  intros Hn He. destruct (Z.eq_dec n 0) as [-> | Hz].
  - change (len (_toBinaryInt 0)) with 1. lia.
  - destruct (toBinaryInt_pos n Hz) as (l & Hl & Hlen).
    rewrite Hl, len_cons, Hlen, Z.abs_eq by lia.
    assert (Z.log2 n < e) by (apply Z.log2_lt_pow2; lia). lia.
Qed.

(** ** The constructor and the exponent field *)



(** X17: the exponent field [toBinary] builds from a biased exponent (its
    binary text, filled with zeros on the left up to [expBits] characters) is
    read back by [parseInt(_, 2)] as that exponent, whenever the exponent is
    below [2^expBits]; it has [expBits] characters and the overflow test does
    not fire. *)
Theorem exponent_field_roundtrip (e exp : Z) :
  1 <= e -> 0 <= exp < 2 ^ e ->
  let _expBits := _toBinaryInt exp in
  let expBits_ := rep c0 (Z.max 0 (e - len _expBits)) ++ _expBits in
  len expBits_ = e
  /\ (len expBits_ >? e) = false
  /\ parseInt2 expBits_ = Some exp.
Proof.
  intros He Hexp _expBits expBits_.
  destruct (toBinaryInt_val exp ltac:(lia)) as (Ha & Hv). fold _expBits in Ha, Hv.
  assert (Hlen : len _expBits <= e).
  { apply toBinaryInt_digits_le; lia. }
  pose proof (len_nonneg _expBits) as Hl.
  assert (Hle : len expBits_ = e).
  { subst expBits_. rewrite len_app, len_rep by lia. lia. }
  split; [exact Hle|]. split.
  - rewrite Hle, Z.gtb_ltb. apply Z.ltb_irrefl.
  - assert (Hb : binVal expBits_ = exp).
    { subst expBits_. now rewrite binVal_rep0_app. }
    destruct expBits_ as [|c r] eqn:E.
    + change (len []) with 0 in Hle. lia.
    + cbn [parseInt2]. now rewrite Hb.
Qed.

Lemma exponent_field_roundtrip_witness :
  parseInt2 (rep c0 (Z.max 0 (4 - len (_toBinaryInt 5))) ++ _toBinaryInt 5)
  = Some 5.
Proof.
  apply (exponent_field_roundtrip 4 5).
  - lia.
  - split; [lia | reflexivity].
Defined.

(** ** The order of the representations *)



(** ** _unexponentiate *)

Lemma isDigit_chars (c : ascii) :
  isDigit c = true ->
  isE c = false /\ Ascii.eqb c "." = false /\ Ascii.eqb c "-" = false.
Proof.
  destruct c as [[] [] [] [] [] [] [] []]; cbv; intros H;
    try discriminate H; repeat split.
Qed.

Lemma splitE_noE (x : str) : noE x -> splitE x = [x].
Proof.
  induction 1 as [|c r Hc _ IH]; [reflexivity|].
  cbn [splitE]. now rewrite Hc, IH.
Qed.

Lemma splitE_mark (x y : str) :
  noE x -> noE y -> splitE (x ++ "e"%char :: y) = [x; y].
Proof.
  intros Hx Hy. induction Hx as [|c r Hc _ IH].
  - cbn [app splitE]. change (isE "e") with true. cbv iota.
    now rewrite splitE_noE.
  - cbn [app splitE]. now rewrite Hc, IH.
Qed.

Lemma digits_noE (x : str) : forallb isDigit x = true -> noE x.
Proof.
  intros H. apply Forall_forall. intros c Hc.
  rewrite forallb_forall in H. now apply isDigit_chars, H.
Qed.

Lemma removeFirstDot_digits (x : str) :
  forallb isDigit x = true -> removeFirstDot x = x.
Proof.
  induction x as [|c r IH]; [reflexivity|]. cbn [forallb]. intros H.
  apply andb_true_iff in H. destruct H as [Hc Hr].
  cbn [removeFirstDot]. destruct (isDigit_chars c Hc) as (_ & -> & _).
  now rewrite IH.
Qed.

Lemma removeFirstDot_digits_dot (x y : str) :
  forallb isDigit x = true -> removeFirstDot (x ++ "."%char :: y) = x ++ y.
Proof.
  induction x as [|c r IH]; [reflexivity|]. cbn [forallb]. intros H.
  apply andb_true_iff in H. destruct H as [Hc Hr].
  cbn [app removeFirstDot]. destruct (isDigit_chars c Hc) as (_ & -> & _).
  now rewrite IH.
Qed.

Lemma splitDot_digits (x : str) :
  forallb isDigit x = true -> splitDot x = (x, []).
Proof.
  induction x as [|c r IH]; [reflexivity|]. cbn [forallb]. intros H.
  apply andb_true_iff in H. destruct H as [Hc Hr].
  cbn [splitDot]. destruct (isDigit_chars c Hc) as (_ & -> & _).
  now rewrite IH.
Qed.

Lemma splitDot_digits_dot (x y : str) :
  forallb isDigit x = true -> splitDot (x ++ "."%char :: y) = (x, y).
Proof.
  induction x as [|c r IH]; [reflexivity|]. cbn [forallb]. intros H.
  apply andb_true_iff in H. destruct H as [Hc Hr].
  cbn [app splitDot]. destruct (isDigit_chars c Hc) as (_ & -> & _).
  now rewrite IH.
Qed.

Lemma digitsVal_acc (x : str) (acc : Z) :
  fold_left (fun a c => 10 * a + digitOf c) x acc
  = acc * 10 ^ len x + digitsVal x.
Proof.
  revert acc. induction x as [|c r IH]; intros acc.
  - change (len []) with 0. unfold digitsVal. simpl. lia.
  - unfold digitsVal. cbn [fold_left]. rewrite (IH (10 * acc + digitOf c)).
    rewrite (IH (10 * 0 + digitOf c)). pose proof (len_nonneg r).
    rewrite len_cons, Z.add_comm, Z.pow_add_r, Z.pow_1_r by lia. lia.
Qed.

Lemma digitsVal_app (x y : str) :
  digitsVal (x ++ y) = digitsVal x * 10 ^ len y + digitsVal y.
Proof.
  unfold digitsVal at 1. rewrite fold_left_app. fold (digitsVal x).
  apply digitsVal_acc.
Qed.

Lemma digitsVal_zeros (n : Z) : digitsVal (rep "0"%char n) = 0.
Proof.
  unfold rep. induction (Z.to_nat n) as [|k IH]; [reflexivity|].
  change (repeat "0"%char (S k)) with (["0"%char] ++ repeat "0"%char k).
  rewrite digitsVal_app, IH. reflexivity.
Qed.

(** The loop that appends zeros, run from an integer [mag] that reaches 0
    after [n] steps: it makes [n] turns, with [n + 1] tests. *)
Lemma zerosLoop_count (step : Q) (sgn : Z) (n : nat) :
  (step == inject_Z sgn)%Q -> sgn <> 0 ->
  forall (fuel : nat) (mag : Q) (z : str),
    (mag == inject_Z (- sgn * Z.of_nat n))%Q -> (n < fuel)%nat ->
    exists mag', zerosLoop fuel step mag z
                 = Some (mag', z ++ repeat "0"%char n).
Proof.
  intros Hstep Hs. unfold zerosLoop.
  induction n as [|n IH]; intros fuel mag z Hmag Hf.
  - destruct fuel as [|fuel]; [lia|]. cbn [while fst].
    assert (E : truthy mag = false).
    { unfold truthy. apply negb_false_iff, Qeq_bool_iff.
      rewrite Hmag, Z.mul_0_r. reflexivity. }
    rewrite E. exists mag. now rewrite app_nil_r.
  - destruct fuel as [|fuel]; [lia|]. cbn [while fst snd].
    assert (E : truthy mag = true).
    { unfold truthy. apply negb_true_iff.
      destruct (Qeq_bool mag 0) eqn:Eq; [|reflexivity].
      apply Qeq_bool_iff in Eq. rewrite Hmag in Eq.
      change 0%Q with (inject_Z 0) in Eq. rewrite inject_Z_injective in Eq.
      apply Z.mul_eq_0 in Eq. destruct Eq; lia. }
    rewrite E.
    destruct (IH fuel (mag + step)%Q (z ++ ["0"%char])) as (mag' & Hw);
      [|lia|].
    + rewrite Hmag, Hstep, <- inject_Z_plus. apply inject_Z_injective.
      rewrite Nat2Z.inj_succ. ring.
    + exists mag'. refine (eq_trans Hw _). f_equal. f_equal.
      rewrite <- app_assoc. reflexivity.
Qed.

Lemma pow10_add (x y : Z) : (pow10 (x + y) == pow10 x * pow10 y)%Q.
Proof. unfold pow10. apply Qpower_plus. discriminate. Qed.

Lemma pow10_nonneg_Z (k : Z) : 0 <= k -> (pow10 k == inject_Z (10 ^ k))%Q.
Proof. intros H. unfold pow10. now rewrite Zpower_Qpower. Qed.

Lemma pow10_cancel (k : Z) : (pow10 k * pow10 (- k) == 1)%Q.
Proof. rewrite <- pow10_add, Z.add_opp_diag_r. reflexivity. Qed.

Lemma mantissaText_noE (negative : bool) (d : ascii) (fp : str) :
  forallb isDigit (d :: fp) = true -> noE (mantissaText negative d fp).
Proof.
  cbn [forallb]. intros H. apply andb_true_iff in H. destruct H as [Hd Hfp].
  unfold mantissaText. apply Forall_app. split.
  - destruct negative; repeat constructor.
  - constructor; [now apply isDigit_chars|].
    destruct fp as [|c r]; [constructor|].
    constructor; [reflexivity | now apply digits_noE].
Qed.

Lemma mantissaText_removeFirstDot (negative : bool) (d : ascii) (fp : str) :
  forallb isDigit (d :: fp) = true ->
  removeFirstDot (mantissaText negative d fp)
  = (if negative then ["-"%char] else []) ++ d :: fp.
Proof.
  cbn [forallb]. intros H. apply andb_true_iff in H. destruct H as [Hd Hfp].
  destruct (isDigit_chars d Hd) as (_ & Hdot & _).
  unfold mantissaText.
  assert (E : removeFirstDot (d :: match fp with [] => [] | _ => "."%char :: fp end)
              = d :: fp).
  { cbn [removeFirstDot]. rewrite Hdot. f_equal.
    destruct fp as [|c r]; [reflexivity|]. reflexivity. }
  destruct negative; cbn [app removeFirstDot];
    [change (Ascii.eqb "-" ".") with false; cbv iota; f_equal|]; exact E.
Qed.

(** The number the text before the exponent mark stands for. *)
Lemma mantissaText_value (negative : bool) (d : ascii) (fp : str) :
  forallb isDigit (d :: fp) = true ->
  (plainValue (mantissaText negative d fp)
   == (if negative then -1 else 1)
      * inject_Z (digitsVal (d :: fp)) * pow10 (- len fp))%Q.
Proof.
  intros H. pose proof H as H'. cbn [forallb] in H'.
  apply andb_true_iff in H'. destruct H' as [Hd Hfp].
  destruct (isDigit_chars d Hd) as (_ & Hdot & Hminus).
  assert (Hbody : stripMinus (mantissaText negative d fp)
                  = d :: match fp with [] => [] | _ => "."%char :: fp end).
  { unfold mantissaText. destruct negative; cbn [app stripMinus];
      [reflexivity | now rewrite Hminus]. }
  assert (Hneg : match mantissaText negative d fp with
                 | c :: _ => Ascii.eqb c "-"
                 | [] => false
                 end = negative).
  { unfold mantissaText. destruct negative; cbn [app]; [reflexivity | exact Hminus]. }
  assert (Hsplit : splitDot (d :: match fp with [] => [] | _ => "."%char :: fp end)
                   = ([d], fp)).
  { destruct fp as [|c r].
    - apply (splitDot_digits [d]). cbn [forallb]. now rewrite Hd.
    - apply (splitDot_digits_dot [d]). cbn [forallb]. now rewrite Hd. }
  unfold plainValue. rewrite Hneg, Hbody, Hsplit.
  change (d :: fp) with ([d] ++ fp). rewrite digitsVal_app.
  pose proof (len_nonneg fp) as Hl.
  rewrite inject_Z_plus, inject_Z_mult, <- pow10_nonneg_Z by exact Hl.
  setoid_replace ((if negative then -1 else 1)
                  * (inject_Z (digitsVal [d]) * pow10 (len fp)
                     + inject_Z (digitsVal fp)) * pow10 (- len fp))%Q
    with ((if negative then -1 else 1)
          * (inject_Z (digitsVal [d]) * (pow10 (len fp) * pow10 (- len fp))
             + inject_Z (digitsVal fp) * pow10 (- len fp)))%Q by ring.
  rewrite pow10_cancel. ring.
Qed.

Lemma Qgtb_0_iff (mag : Q) (k : Z) :
  (mag == inject_Z k)%Q -> Qgtb 0 mag = (k <? 0).
Proof.
  intros H. destruct (k <? 0) eqn:E.
  - apply Qgtb_lt. rewrite H. change 0%Q with (inject_Z 0).
    rewrite <- Zlt_Qlt. now apply Z.ltb_lt.
  - apply Z.ltb_ge in E. unfold Qgtb. apply negb_false_iff, Qle_bool_iff.
    rewrite H. change 0%Q with (inject_Z 0). now rewrite <- Zle_Qle.
Qed.

Lemma plainValue_small (negative : bool) (rest : str) :
  plainValue ((if negative then ["-"%char] else [])
              ++ "0"%char :: "."%char :: rest)
  = ((if negative then -1 else 1)
     * (inject_Z 0 + inject_Z (digitsVal rest) * pow10 (- len rest)))%Q.
Proof. destruct negative; reflexivity. Qed.

(** X19: a number below 10^-6 in magnitude.  On the text
    [mantissa e -k] of such a number ([k >= 2]), [_unexponentiate] returns,
    after [k - 1] turns of its first loop, the sign, "0.", [k - 1] zeros and
    the digits of the mantissa; read as a plain decimal, the result is the
    mantissa times [10^-k]: the number is unchanged. *)
Theorem unexponentiate_negative_exponent (Number_ : str -> number)
  (negative : bool) (d : ascii) (fp expTxt : str) (x : Q) (k : Z) :
  forallb isDigit (d :: fp) = true -> noE expTxt ->
  Number_ expTxt = Fin x -> (x == inject_Z (- k))%Q -> 2 <= k ->
  let mant := mantissaText negative d fp in
  let r := (if negative then ["-"%char] else [])
           ++ "0"%char :: "."%char :: rep "0"%char (k - 1) ++ d :: fp in
  (forall fuel, (Z.to_nat k <= fuel)%nat ->
     _unexponentiate Number_ fuel (mant ++ "e"%char :: expTxt) negative
     = Some r)
  /\ (plainValue r == plainValue mant * pow10 (- k))%Q.
Proof.
  intros Hdig HnoE HN Hx Hk mant r.
  pose proof Hdig as H'. cbn [forallb] in H'.
  apply andb_true_iff in H'. destruct H' as [Hd Hfp].
  destruct (isDigit_chars d Hd) as (_ & _ & Hminus).
  split.
  - intros fuel Hfuel. unfold _unexponentiate.
    rewrite (splitE_mark mant expTxt (mantissaText_noE negative d fp Hdig) HnoE).
    rewrite HN. cbv zeta.
    assert (Hmag : (x + 1 == inject_Z (1 - k))%Q).
    { rewrite Hx. unfold Z.sub. rewrite inject_Z_plus, inject_Z_opp. ring. }
    rewrite (Qgtb_0_iff _ _ Hmag).
    replace (1 - k <? 0) with true by (symmetry; apply Z.ltb_lt; lia).
    destruct (zerosLoop_count 1 1 (Z.to_nat (k - 1)) ltac:(reflexivity)
                ltac:(discriminate) fuel (x + 1)%Q
                ((if negative then ["-"%char] else []) ++ ["0"%char; "."%char]))
      as (mag' & Hw); [|lia|].
    { rewrite Hmag. apply inject_Z_injective. lia. }
    rewrite Hw. cbn [snd]. f_equal.
    unfold mant. rewrite (mantissaText_removeFirstDot negative d fp Hdig).
    assert (Hs : stripMinus ((if negative then ["-"%char] else []) ++ d :: fp)
                 = d :: fp).
    { destruct negative; cbn [app stripMinus]; [reflexivity | now rewrite Hminus]. }
    rewrite Hs. subst r. unfold rep. rewrite <- !app_assoc. reflexivity.
  - unfold mant. rewrite (mantissaText_value negative d fp Hdig).
    assert (Hr : (plainValue r
                  == (if negative then -1 else 1)
                     * (inject_Z (digitsVal (d :: fp))
                        * pow10 (- (k + len fp))))%Q).
    { subst r. rewrite plainValue_small.
      rewrite digitsVal_app, digitsVal_zeros, len_app, len_rep, len_cons by lia.
      replace (k - 1 + (1 + len fp)) with (k + len fp) by lia.
      rewrite Z.mul_0_l, Z.add_0_l. change (inject_Z 0) with 0%Q. ring. }
    rewrite Hr. replace (- (k + len fp)) with (- len fp + - k) by lia.
    rewrite pow10_add. ring.
Qed.

Lemma unexponentiate_negative_exponent_witness :
  _unexponentiate NumberInt 7 (s "-1.25e-7") true = Some (s "-0.000000125")
  /\ (plainValue (s "-0.000000125") == plainValue (s "-1.25") * pow10 (-7))%Q.
Proof.
  destruct (unexponentiate_negative_exponent NumberInt true "1" (s "25")
              (s "-7") (inject_Z (-7)) 7) as [H1 H2].
  - reflexivity.
  - repeat constructor.
  - reflexivity.
  - reflexivity.
  - lia.
  - split; [apply (H1 7%nat); lia | exact H2].
Defined.

Lemma plainValue_digits (negative : bool) (d : ascii) (ds : str) :
  forallb isDigit (d :: ds) = true ->
  (plainValue ((if negative then ["-"%char] else []) ++ d :: ds)
   == (if negative then -1 else 1) * inject_Z (digitsVal (d :: ds)))%Q.
Proof.
  intros H. pose proof H as H'. cbn [forallb] in H'.
  apply andb_true_iff in H'. destruct H' as [Hd _].
  destruct (isDigit_chars d Hd) as (_ & _ & Hminus).
  unfold plainValue.
  assert (Hbody : stripMinus ((if negative then ["-"%char] else []) ++ d :: ds)
                  = d :: ds).
  { destruct negative; cbn [app stripMinus]; [reflexivity | now rewrite Hminus]. }
  assert (Hneg : match (if negative then ["-"%char] else []) ++ d :: ds with
                 | c :: _ => Ascii.eqb c "-"
                 | [] => false
                 end = negative).
  { destruct negative; cbn [app]; [reflexivity | exact Hminus]. }
  rewrite Hneg, Hbody, (splitDot_digits (d :: ds) H).
  change (digitsVal []) with 0. change (inject_Z 0) with 0%Q. ring.
Qed.

Lemma forallb_isDigit_zeros (n : Z) : forallb isDigit (rep "0"%char n) = true.
Proof.
  unfold rep. induction (Z.to_nat n) as [|k IH]; [reflexivity|].
  cbn [repeat forallb]. now rewrite IH.
Qed.

(** X20: a number of magnitude 10^21 or more.  On the text
    [mantissa e +x] of such a number, where the exponent is at least the
    number of characters of the mantissa without its dot, less one,
    [_unexponentiate] returns these characters followed by zeros.  For a
    number that is not negative the result, read as a plain decimal, is the
    mantissa times [10^x]; for a negative number the "-" is counted among
    the characters, and the result is ten times too small. *)
Theorem unexponentiate_positive_exponent (Number_ : str -> number)
  (negative : bool) (d : ascii) (fp expTxt : str) (x : Q) (xz : Z) :
  forallb isDigit (d :: fp) = true -> noE expTxt ->
  Number_ expTxt = Fin x -> (x == inject_Z xz)%Q ->
  let mant := mantissaText negative d fp in
  let str_ := (if negative then ["-"%char] else []) ++ d :: fp in
  len str_ <= xz + 1 ->
  let r := str_ ++ rep "0"%char (xz + 1 - len str_) in
  (forall fuel, (Z.to_nat (xz + 2 - len str_) <= fuel)%nat ->
     _unexponentiate Number_ fuel (mant ++ "e"%char :: expTxt) negative
     = Some r)
  /\ (plainValue r * (if negative then 10 else 1)
      == plainValue mant * pow10 xz)%Q.
Proof.
  intros Hdig HnoE HN Hx mant str_ Hlen r.
  pose proof (len_nonneg fp) as Hlf.
  assert (Hls : len str_ = (if negative then 1 else 0) + 1 + len fp).
  { unfold str_. rewrite len_app, len_cons.
    destruct negative;
      [change (len ["-"%char]) with 1 | change (len []) with 0]; lia. }
  split.
  - intros fuel Hfuel. unfold _unexponentiate.
    rewrite (splitE_mark mant expTxt (mantissaText_noE negative d fp Hdig) HnoE).
    rewrite HN. cbv zeta.
    assert (Hmag : (x + 1 == inject_Z (xz + 1))%Q).
    { rewrite Hx, inject_Z_plus. reflexivity. }
    rewrite (Qgtb_0_iff _ _ Hmag).
    replace (xz + 1 <? 0) with false
      by (symmetry; apply Z.ltb_ge; destruct negative; lia).
    unfold mant. rewrite (mantissaText_removeFirstDot negative d fp Hdig).
    fold str_.
    destruct (zerosLoop_count (-1) (-1) (Z.to_nat (xz + 1 - len str_))
                ltac:(reflexivity) ltac:(discriminate) fuel
                (x + 1 - inject_Z (len str_))%Q [])
      as (mag' & Hw); [|lia|].
    { rewrite Hmag. unfold Qminus. rewrite <- inject_Z_opp, <- inject_Z_plus.
      apply inject_Z_injective. lia. }
    rewrite Hw. cbn [snd app]. reflexivity.
  - unfold mant. rewrite (mantissaText_value negative d fp Hdig).
    set (j := xz + 1 - len str_) in *.
    assert (Hj : 0 <= j) by (subst j; lia).
    assert (Hr : (plainValue r
                  == (if negative then -1 else 1)
                     * (inject_Z (digitsVal (d :: fp)) * pow10 j))%Q).
    { subst r str_. rewrite <- app_assoc. cbn [app].
      rewrite plainValue_digits.
      - change (d :: fp ++ rep "0"%char j) with ((d :: fp) ++ rep "0"%char j).
        rewrite digitsVal_app, digitsVal_zeros, len_rep by exact Hj.
        rewrite Z.add_0_r, inject_Z_mult, <- pow10_nonneg_Z by exact Hj.
        reflexivity.
      - change (d :: fp ++ rep "0"%char j) with ((d :: fp) ++ rep "0"%char j).
        rewrite forallb_app, Hdig, forallb_isDigit_zeros. reflexivity. }
    rewrite Hr.
    assert (Hp : (pow10 j * (if negative then 10 else 1)
                  == pow10 (- len fp) * pow10 xz)%Q).
    { rewrite <- pow10_add. destruct negative.
      - change 10%Q with (pow10 1). rewrite <- pow10_add.
        replace (j + 1) with (- len fp + xz) by (subst j; lia). reflexivity.
      - replace j with (- len fp + xz) by (subst j; lia). ring. }
    setoid_replace ((if negative then -1 else 1)
                    * (inject_Z (digitsVal (d :: fp)) * pow10 j)
                    * (if negative then 10 else 1))%Q
      with ((if negative then -1 else 1) * inject_Z (digitsVal (d :: fp))
            * (pow10 j * (if negative then 10 else 1)))%Q by ring.
    rewrite Hp. ring.
Qed.

Lemma unexponentiate_positive_exponent_witness :
  _unexponentiate NumberInt 21 (s "1.5e+21") false
  = Some (s "1500000000000000000000")
  /\ (plainValue (s "1500000000000000000000") * 1
      == plainValue (s "1.5") * pow10 21)%Q.
Proof.
  destruct (unexponentiate_positive_exponent NumberInt false "1" (s "5")
              (s "+21") (inject_Z 21) 21) as [H1 H2].
  - reflexivity.
  - repeat constructor.
  - reflexivity.
  - reflexivity.
  - vm_compute. discriminate.
  - split; [apply (H1 21%nat); vm_compute; lia | exact H2].
Defined.

Lemma splitE_pieces (x : str) : Forall noE (splitE x).
Proof.
  induction x as [|c r IH]; [repeat constructor|].
  cbn [splitE]. destruct (isE c) eqn:E.
  - constructor; [constructor | exact IH].
  - destruct (splitE r) as [|p ps]; [repeat constructor; exact E|].
    apply Forall_cons_iff in IH. destruct IH as [Hp Hps].
    constructor; [constructor; assumption | exact Hps].
Qed.

Lemma removeFirstDot_noE (x : str) : noE x -> noE (removeFirstDot x).
Proof.
  induction 1 as [|c r Hc Hr IH]; [constructor|].
  cbn [removeFirstDot]. destruct (Ascii.eqb c "."); [exact Hr | now constructor].
Qed.

Lemma stripMinus_noE (x : str) : noE x -> noE (stripMinus x).
Proof.
  intros H. destruct H as [|c r Hc Hr]; [constructor|].
  cbn [stripMinus]. destruct (Ascii.eqb c "-"); [exact Hr | now constructor].
Qed.

Lemma zerosLoop_noE (fuel : nat) (step mag : Q) (z : str) (st : Q * str) :
  noE z -> zerosLoop fuel step mag z = Some st -> noE (snd st).
Proof.
  intros Hz Hw. unfold zerosLoop in Hw.
  apply (while_inv (fun st0 : Q * str => noE (snd st0))) in Hw.
  - now destruct Hw.
  - intros st0 H0 _. cbn [snd]. apply Forall_app. split; [exact H0|].
    repeat constructor.
  - exact Hz.
Qed.

(** X21: whatever the text, whatever [Number] makes of the exponent, a text
    that [_unexponentiate] returns holds no exponent mark "e" or "E". *)
Theorem unexponentiate_no_mark (Number_ : str -> number) (fuel : nat)
  (String_num : str) (negative : bool) (r : str) :
  _unexponentiate Number_ fuel String_num negative = Some r -> noE r.
Proof.
  unfold _unexponentiate. pose proof (splitE_pieces String_num) as Hp.
  destruct (splitE String_num) as [|d0 [|d1 rest]]; [discriminate| |].
  - intros H. injection H as <-. now apply Forall_cons_iff in Hp.
  - apply Forall_cons_iff in Hp. destruct Hp as [H0 _].
    pose proof (removeFirstDot_noE d0 H0) as Hs. cbv zeta.
    destruct (Number_ d1) as [| | |x]; try discriminate.
    + intros H. injection H as <-. now rewrite app_nil_r.
    + destruct (Qgtb 0 (x + 1)).
      * destruct (zerosLoop fuel 1 (x + 1) _) as [st|] eqn:E; [|discriminate].
        intros H. injection H as <-. apply Forall_app. split.
        -- eapply zerosLoop_noE; [|exact E]. destruct negative; repeat constructor.
        -- now apply stripMinus_noE.
      * destruct (zerosLoop fuel (-1) _ _) as [st|] eqn:E; [|discriminate].
        intros H. injection H as <-. apply Forall_app. split; [exact Hs|].
        eapply zerosLoop_noE; [|exact E]. constructor.
Qed.

Lemma unexponentiate_no_mark_witness :
  noE (s "0.0000001").
Proof.
  apply (unexponentiate_no_mark NumberInt 7 (s "1e-7") false).
  reflexivity.
Defined.

(** ** Where the offset exponent is 0 or equals the bias *)

(** The exponent field built from a biased exponent below [2^e]. *)
Lemma padded_field (e exp : Z) :
  1 <= e -> 0 <= exp < 2 ^ e ->
  exists ex,
    (if len (rep c0 (Z.max 0 (e - len (_toBinaryInt exp))) ++ _toBinaryInt exp)
        >? e
     then rep c1 e
     else rep c0 (Z.max 0 (e - len (_toBinaryInt exp))) ++ _toBinaryInt exp)
    = ex
    /\ len ex = e /\ allBin ex /\ binVal ex = exp.
Proof.
  intros He Hexp.
  destruct (toBinaryInt_val exp ltac:(lia)) as (Ha & Hv).
  pose proof (toBinaryInt_digits_le exp e Hexp He) as Hlen.
  pose proof (len_nonneg (_toBinaryInt exp)) as Hl.
  set (padded := rep c0 (Z.max 0 (e - len (_toBinaryInt exp))) ++ _toBinaryInt exp).
  assert (Hle : len padded = e).
  { subst padded. rewrite len_app, len_rep by lia. lia. }
  exists padded. split.
  { rewrite Hle.
    replace (e >? e) with false
      by (symmetry; rewrite Z.gtb_ltb; apply Z.ltb_irrefl).
    reflexivity. }
  split; [exact Hle|]. split.
  - subst padded. apply allBin_app; [now apply allBin_rep | exact Ha].
  - subst padded. now rewrite binVal_rep0_app.
Qed.



Lemma dyadic_le (A x k : Z) :
  0 <= x + k ->
  (pow2 x <= inject_Z A * pow2 (- k))%Q -> 2 ^ (x + k) <= A.
Proof.
  intros Hxk H.
  assert (H' : (pow2 x * pow2 k <= inject_Z A * pow2 (- k) * pow2 k)%Q).
  { apply Qmult_le_compat_r; [exact H | apply Qlt_le_weak, pow2_pos]. }
  rewrite <- pow2_add in H'.
  setoid_replace (inject_Z A * pow2 (- k) * pow2 k)%Q
    with (inject_Z A * (pow2 k * pow2 (- k)))%Q in H' by ring.
  rewrite pow2_cancel, Qmult_1_r, pow2_nonneg_Z in H' by exact Hxk.
  now rewrite <- Zle_Qle in H'.
Qed.

Lemma dyadic_lt (A x k : Z) :
  0 <= x + k ->
  (inject_Z A * pow2 (- k) < pow2 x)%Q -> A < 2 ^ (x + k).
Proof.
  intros Hxk H.
  assert (H' : (inject_Z A * pow2 (- k) * pow2 k < pow2 x * pow2 k)%Q).
  { apply Qmult_lt_compat_r; [apply pow2_pos | exact H]. }
  rewrite <- pow2_add in H'.
  setoid_replace (inject_Z A * pow2 (- k) * pow2 k)%Q
    with (inject_Z A * (pow2 k * pow2 (- k)))%Q in H' by ring.
  rewrite pow2_cancel, Qmult_1_r, pow2_nonneg_Z in H' by exact Hxk.
  now rewrite <- Zlt_Qlt in H'.
Qed.

(** X23: with at least two exponent bits, a number in
    [2^bias, 2^(bias + 1)) (with at most [totalBits + 1] binary digits after
    the point) is encoded with an exponent field of zeros: its offset
    exponent equals the bias, and the biased exponent is then taken to
    be 0. *)
Theorem toBinary_bias_binade (e m : Z) (a : Q) (n : Z) (rounding : bool) :
  2 <= e -> 0 <= m ->
  let f := constructor e m in
  (pow2 (biasZ f) <= a)%Q -> (a < pow2 (biasZ f + 1))%Q ->
  (a * pow2 (totalBits f + 1) == inject_Z n)%Q ->
  expField f (toBinary f a rounding) = rep c0 e.
Proof.
  intros He Hm f Hlo Hhi Hn.
  assert (He1 : 1 <= e) by lia.
  pose proof (biasZ_nonneg e m He1) as Hb. fold f in Hb.
  assert (Ha : (0 < a)%Q).
  { apply Qlt_le_trans with (pow2 (biasZ f)); [apply pow2_pos | exact Hlo]. }
  assert (Htb : 0 <= totalBits f) by (change (totalBits f) with (1 + e + m); lia).
  destruct (normalized_data f a n Htb Ha Hn) as (t & Hs & Hat & Hoff & Hval).
  unfold toBinary, toBinaryBody.
  set (decBits := match decLoop f (Qabs (a - inject_Z (truncQ a))) with
                  | Some st => join (_decBits st)
                  | None => []
                  end) in *.
  rewrite Hs, Hoff.
  set (k := len decBits) in *. set (T := len t) in *. set (b := biasZ f) in *.
  assert (Hk : 0 <= k) by apply len_nonneg.
  assert (HT : 0 <= T) by apply len_nonneg.
  rewrite Hval in Hlo, Hhi. rewrite binVal_cons in Hlo, Hhi.
  change (digitVal c1) with 1 in Hlo, Hhi. fold T in Hlo, Hhi.
  pose proof (binVal_bounds t) as BX. fold T in BX.
  apply dyadic_le in Hlo; [|lia]. apply dyadic_lt in Hhi; [|lia].
  assert (HTk : T - k = b).
  { assert (H1 : b + k < T + 1).
    { apply (Z.pow_lt_mono_r_iff 2); [lia | lia|].
      rewrite (Z.pow_add_r 2 T 1) by lia. lia. }
    assert (H2 : T < b + 1 + k).
    { apply (Z.pow_lt_mono_r_iff 2); [lia | lia|]. lia. }
    lia. }
  rewrite HTk. replace (b - b =? 0) with true by (symmetry; apply Z.eqb_eq; lia).
  change (0 <? 0) with false. cbv iota.
  assert (H0e : 0 <= 0 < 2 ^ e).
  { split; [lia | apply Z.pow_pos_nonneg; lia]. }
  destruct (padded_field e 0 He1 H0e) as (ex & Hex & Hle & Hax & Hvx).
  change (expBits f) with e. rewrite Hex.
  destruct (fields_of_concat f (signBit a) ex
              (normalMant f a rounding
                 (len (rep c0 (Z.max 0 (e - len (_toBinaryInt 0)))
                       ++ _toBinaryInt 0) >? e) 0 (c1 :: t)))
    as (_ & HfE & _);
    [exact Hle | apply normalMant_length; simpl; lia |].
  rewrite HfE.
  apply binVal_unique;
    [ exact Hax | now apply allBin_rep | rewrite len_rep by lia; exact Hle
    | now rewrite binVal_zeros ].
Qed.

Lemma toBinary_bias_binade_witness :
  expField (constructor 2 3) (toBinary (constructor 2 3) 3 true) = rep c0 2.
Proof.
  apply (toBinary_bias_binade 2 3 3 384 true).
  - lia.
  - lia.
  - vm_compute. discriminate.
  - vm_compute. reflexivity.
  - reflexivity.
Defined.
